(** * API Contract Guardian: rule registry, rule engine, configuration
      resolver and orchestrator.

    A shallow embedding of
      packages/core/src/rules/RuleRegistry.ts
      packages/core/src/rules/RuleEngine.ts, builtIn.ts
      packages/core/src/config/ConfigParser.ts, defaults.ts
      packages/core/src/validator/Validator.ts
    (and of what Validator.ts uses of loader/SpecLoader.ts), together with
    the properties the specification states about them.

    Conventions.  A TypeScript optional field [f?: T] is an [option T]
    ([None] is [undefined]).  A [Record<string, T>] or object used as a
    dictionary is a [gmap string T].  A [Map] whose iteration order the code
    relies on is a list in insertion order.  Values whose run-time type the
    code does not check ([unknown], and everything reached through an
    [as T] cast) are [JsVal].  Code that can throw lives in the [Exc]
    monad.  Logging, wall-clock timings ([performance.now()], the
    [executionTime]/[totalTime] fields) and [new Date()] are left out: no
    control flow depends on them. *)

From Stdlib Require Import ZArith String Ascii List Bool Lia.
From stdpp Require Import base option list gmap strings pretty fin_maps.

Local Open Scope Z_scope.
Set Warnings "-register-all".

(** ** JavaScript values *)

Module JS.

(** [Number.MAX_SAFE_INTEGER]: up to this magnitude every integer is a
    double, and [Number::toString] prints it as its decimal digits. *)
Definition MAX_SAFE_INTEGER : Z := 9007199254740991.

Definition is_safe (n : Z) : bool := Z.abs n <=? MAX_SAFE_INTEGER.

Record SafeInteger : Type := mkSafe {
  int_value : Z;
  int_safe : is_safe int_value = true;
}.

(** Plain data as a rule function or a parsed document can produce it: no
    functions, no accessors, no symbols, and [Object.prototype] (or
    [Array.prototype]) as prototype.  Numbers are the safe integers and
    [NaN]; fractions and larger magnitudes are outside the model.  An
    object keeps its own properties in insertion order. *)
Inductive JsVal : Type :=
| JUndefined
| JNull
| JBool (b : bool)
| JNum (n : SafeInteger)
| JNaN
| JStr (s : string)
| JArr (elems : list JsVal)
| JObj (props : list (string * JsVal)).

(** A number literal. *)
Abbreviation JInt n := (JNum (mkSafe n eq_refl)).

(** ToBoolean: the falsy values are undefined, null, false, 0, NaN and
    the empty string. *)
Definition truthy (v : JsVal) : bool :=
  match v with
  | JUndefined | JNull | JNaN => false
  | JBool b => b
  | JNum n => negb (int_value n =? 0)
  | JStr s => negb (String.eqb s EmptyString)
  | JArr _ | JObj _ => true
  end.

(** [a || b] *)
Definition js_or (a b : JsVal) : JsVal := if truthy a then a else b.

(** [typeof v === 'object'] (true of null and of arrays as well). *)
Definition typeof_object (v : JsVal) : bool :=
  match v with
  | JNull | JArr _ | JObj _ => true
  | _ => false
  end.

(** [Array.isArray(v)] *)
Definition isArray (v : JsVal) : bool :=
  match v with JArr _ => true | _ => false end.

Fixpoint assoc (k : string) (props : list (string * JsVal)) : option JsVal :=
  match props with
  | [] => None
  | (k', v) :: rest => if String.eqb k k' then Some v else assoc k rest
  end.

(** Names every plain object inherits from [Object.prototype]. *)
Definition object_prototype_members : list string :=
  [ "constructor"; "__proto__"; "hasOwnProperty"; "isPrototypeOf";
    "propertyIsEnumerable"; "toLocaleString"; "toString"; "valueOf";
    "__defineGetter__"; "__defineSetter__"; "__lookupGetter__";
    "__lookupSetter__" ]%string.

Definition inherited (k : string) : bool :=
  existsb (String.eqb k) object_prototype_members.

(** [k in v] for a value that passed [typeof v === 'object'] and is not
    null: own properties, then the prototype chain.  For an array the own
    keys are its indices and [length]; none of the names looked up below is
    one of them, nor a member of [Array.prototype]. *)
Definition has_property (k : string) (v : JsVal) : bool :=
  match v with
  | JObj props => bool_decide (is_Some (assoc k props)) || inherited k
  | _ => false
  end.

(** [v.k] (or [v[k]]) for a key that is not inherited: an own property or
    undefined. *)
Definition get_own (k : string) (v : JsVal) : JsVal :=
  match v with
  | JObj props => default JUndefined (assoc k props)
  | _ => JUndefined
  end.

(** [String(v)]; [None] where the conversion raises a [TypeError].  An
    object is converted through its [toString] and [valueOf] methods: with
    no own [toString] the inherited one answers "[object Object]"; an own
    [toString] is data here, hence not callable, and [valueOf] (own and not
    callable, or inherited and returning the object itself) gives no
    primitive either, so the conversion fails.  An array is joined with
    commas, null and undefined elements as empty text, and fails where an
    element fails. *)
Fixpoint js_String (v : JsVal) : option string :=
  match v with
  | JUndefined => Some "undefined"
  | JNull => Some "null"
  | JBool true => Some "true"
  | JBool false => Some "false"
  | JNum n => Some (pretty (int_value n))
  | JNaN => Some "NaN"
  | JStr s => Some s
  | JObj props =>
      match assoc "toString" props with
      | Some _ => None
      | None => Some "[object Object]"
      end
  | JArr elems =>
      let elem_str (e : JsVal) : option string :=
        match e with
        | JUndefined | JNull => Some EmptyString
        | _ => js_String e
        end in
      (fix join (l : list JsVal) : option string :=
         match l with
         | [] => Some EmptyString
         | [e] => elem_str e
         | e :: rest =>
             match elem_str e with
             | Some first =>
                 match join rest with
                 | Some others => Some (first +:+ "," +:+ others)
                 | None => None
                 end
             | None => None
             end
         end) elems
  end%string.

(** [v === s] for a string literal [s]. *)
Definition strict_eq_str (v : JsVal) (s : string) : bool :=
  match v with JStr s' => String.eqb s' s | _ => false end.

(** [typeof v] *)
Definition typeof (v : JsVal) : string :=
  match v with
  | JUndefined => "undefined"
  | JNull | JArr _ | JObj _ => "object"
  | JBool _ => "boolean"
  | JNum _ | JNaN => "number"
  | JStr _ => "string"
  end.

End JS.
Export JS.

(** ** Exceptions *)

(** What a [throw] carries: an [Error] with its message, or any other
    value. *)
Inductive Thrown : Type :=
| ThrownError (message : string)
| ThrownValue (v : JsVal).


Inductive Exc (E A : Type) : Type :=
| Ret (a : A)
| Throw (e : E).
Arguments Ret {E A} a.
Arguments Throw {E A} e.

#[global] Instance Exc_ret {E} : MRet (Exc E) := λ A a, Ret a.
#[global] Instance Exc_bind {E} : MBind (Exc E) := λ A B f m,
  match m with
  | Ret a => f a
  | Throw e => Throw e
  end.

(** [try { body } catch (error) { handler(error) }] *)
Definition try_catch {E A} (body : Exc E A) (handler : E → Exc E A) : Exc E A :=
  match body with
  | Ret a => Ret a
  | Throw e => handler e
  end.

(** [error instanceof Error ? error.message : String(error)], evaluated
    in a [catch] block: a conversion that fails throws out of the block. *)
Definition thrown_message (t : Thrown) : Exc Thrown string :=
  match t with
  | ThrownError m => Ret m
  | ThrownValue v =>
      match js_String v with
      | Some text => Ret text
      | None => Throw (ThrownError "Cannot convert object to primitive value")
      end
  end.

Definition dquote : string := String (ascii_of_nat 34) EmptyString.

(** ** Rule model (interfaces/Rule.ts, ValidationResult.ts, Config.ts) *)

Inductive IssueSeverity : Type := ERROR | WARNING | INFO | HINT.

#[global] Instance IssueSeverity_eq_dec : EqDecision IssueSeverity.
Proof. solve_decision. Defined.

(** The enum's run-time values.  All four are non-empty strings, hence
    truthy: on an [IssueSeverity?] operand [||] and [??] agree. *)
Definition severity_value (s : IssueSeverity) : string :=
  match s with
  | ERROR => "error"
  | WARNING => "warning"
  | INFO => "info"
  | HINT => "hint"
  end.

Inductive RuleCategory : Type :=
  STRUCTURAL | DOCUMENTATION | REST | GOVERNANCE | SECURITY.

#[global] Instance RuleCategory_eq_dec : EqDecision RuleCategory.
Proof. solve_decision. Defined.

(** [RuleOptions], [Record<string, unknown>] *)
Abbreviation Options := (gmap string JsVal).

(** [RuleFunction]: called with the document and the effective options; it
    returns some value (an array, if it keeps its contract) or throws. *)
Definition RuleFunction : Type := JsVal → option Options → Exc Thrown JsVal.

Record Rule : Type := mkRule {
  id : string;
  name : string;
  description : string;
  severity : IssueSeverity;
  category : RuleCategory;
  enabled : option bool;
  fixable : option bool;
  fn : RuleFunction;
  options : option Options;
}.

Record RuleConfig : Type := mkRuleConfig {
  rc_severity : option IssueSeverity;
  rc_enabled : option bool;
  rc_options : option Options;
}.

(** [boolean | RuleConfig], the value side of a rules map. *)
Inductive RuleSetting : Type :=
| SettingBool (b : bool)
| SettingConfig (c : RuleConfig).

(** [{...a, ...b}] on two optional dictionaries: an object holding the keys
    of both, the value of [b] where both have the key. *)
Definition spread2 {V} (a b : option (gmap string V)) : gmap string V :=
  default ∅ b ∪ default ∅ a.

(** [a ?? b] *)
Definition nullish {A} (a b : option A) : option A :=
  match a with
  | Some x => Some x
  | None => b
  end.

(** ** Rule registry (rules/RuleRegistry.ts) *)

Module RuleRegistry.

Record t : Type := mk {
  rules : list Rule;                                (* Map, insertion order *)
  ruleCategories : list (RuleCategory * list string);
  overrides : gmap string RuleConfig;
}.

Definition empty : t := mk [] [] ∅.

(** [this.rules.get(ruleId)] *)
Definition get (reg : t) (ruleId : string) : option Rule :=
  List.find (λ r, String.eqb (id r) ruleId) (rules reg).

Definition has (reg : t) (ruleId : string) : bool :=
  bool_decide (is_Some (get reg ruleId)).

Fixpoint track (c : RuleCategory) (ruleId : string)
    (idx : list (RuleCategory * list string)) : list (RuleCategory * list string) :=
  match idx with
  | [] => [(c, [ruleId])]
  | (c', ids) :: rest =>
      if decide (c = c')
      then (c', if existsb (String.eqb ruleId) ids then ids else ids ++ [ruleId]) :: rest
      else (c', ids) :: track c ruleId rest
  end.

Definition register (rule : Rule) (reg : t) : Exc Thrown t :=
  if has reg (id rule)
  then Throw (ThrownError
         ("Rule with ID " +:+ dquote +:+ id rule +:+ dquote +:+ " is already registered"))
  else Ret (mk (rules reg ++ [rule])
               (track (category rule) (id rule) (ruleCategories reg))
               (overrides reg)).

Fixpoint registerBatch (rs : list Rule) (reg : t) : Exc Thrown t :=
  match rs with
  | [] => Ret reg
  | r :: rest => reg' ← register r reg; registerBatch rest reg'
  end.

(** One iteration of the loop in [applyOverrides]: a bare boolean stores
    [{ enabled: config }], anything else is stored as it is. *)
Definition setOverride (reg : t) (entry : string * RuleSetting) : t :=
  let override :=
    match entry.2 with
    | SettingBool b => mkRuleConfig None (Some b) None
    | SettingConfig c => c
    end in
  mk (rules reg) (ruleCategories reg) (<[entry.1 := override]> (overrides reg)).

(** [ruleConfigs] is given by its [Object.entries]. *)
Definition applyOverrides (ruleConfigs : list (string * RuleSetting)) (reg : t) : t :=
  foldl setOverride reg ruleConfigs.

Definition getEffectiveRule (reg : t) (ruleId : string)
    (defaultSeverity : option IssueSeverity) : option Rule :=
  match get reg ruleId with
  | None => None
  | Some rule =>
      match overrides reg !! ruleId with
      | None => Some rule
      | Some override =>
          Some (mkRule (id rule) (name rule) (description rule)
                  (default (default (severity rule) defaultSeverity)
                     (rc_severity override))
                  (category rule)
                  (nullish (rc_enabled override) (enabled rule))
                  (fixable rule)
                  (fn rule)
                  (Some (spread2 (options rule) (rc_options override))))
      end
  end.

(** [rule.enabled !== false] on the effective rule. *)
Definition isEnabled (reg : t) (ruleId : string) : bool :=
  match getEffectiveRule reg ruleId None with
  | None => false
  | Some rule => negb (bool_decide (enabled rule = Some false))
  end.

Definition clearOverrides (reg : t) : t :=
  mk (rules reg) (ruleCategories reg) ∅.

Definition getAllIds (reg : t) : list string := map id (rules reg).

Definition getCount (reg : t) : nat := length (rules reg).

Definition clear (reg : t) : t := empty.

Definition getAll (reg : t) : list Rule := rules reg.

(** [this.ruleCategories.get(category) ?? new Set()] *)
Fixpoint categoryIds (c : RuleCategory) (idx : list (RuleCategory * list string))
    : list string :=
  match idx with
  | [] => []
  | (c', ids) :: rest => if decide (c = c') then ids else categoryIds c rest
  end.

(** The ids of the category, each looked up in [rules]; an id without a
    rule is filtered out. *)
Definition getByCategory (reg : t) (c : RuleCategory) : list Rule :=
  omap (get reg) (categoryIds c (ruleCategories reg)).

Definition getAllCategories (reg : t) : list RuleCategory :=
  (ruleCategories reg).*1.

Record RegistryStats : Type := mkRegistryStats {
  totalRules : nat;
  rulesByCategory : list (RuleCategory * nat);
  enabledRules : nat;
  overridesApplied : nat;
}.

Definition getStats (reg : t) : RegistryStats :=
  mkRegistryStats
    (length (rules reg))
    (prod_map Datatypes.id (@length string) <$> ruleCategories reg)
    (length (List.filter (λ rule, isEnabled reg (id rule)) (rules reg)))
    (size (overrides reg)).

(** [registerBatch] together with the registry it leaves behind.  The loop
    calls [register] on [this]: when one call throws, the rules registered
    by the earlier iterations stay registered. *)
Fixpoint registerBatchIn (rs : list Rule) (reg : t) : t * option Thrown :=
  match rs with
  | [] => (reg, None)
  | r :: rest =>
      match register r reg with
      | Ret reg' => registerBatchIn rest reg'
      | Throw e => (reg, Some e)
      end
  end.

End RuleRegistry.

(** ** Rule engine (rules/RuleEngine.ts) *)

Module RuleEngine.

Record RuleExecutionStats : Type := mkStats {
  st_ruleId : string;
  executed : bool;
  issuesFound : nat;
  error : option string;
}.

(** A [ValidationIssue] as [normalizeResults] builds it.  The casts in the
    source convert nothing, so every field holds whatever value the raw
    result carried; an absent optional field is [JUndefined]. *)
Record ValidationIssue : Type := mkIssue {
  i_ruleId : JsVal;
  i_ruleDescription : JsVal;
  i_severity : JsVal;
  i_path : JsVal;
  i_line : JsVal;
  i_column : JsVal;
  i_message : JsVal;
  i_suggestion : JsVal;
  i_category : JsVal;
}.

(** The callback of [results.map(...)]; [None] is the [null] that the
    following [filter] removes. *)
Definition normalizeOne (ruleId ruleName : string) (sev : IssueSeverity)
    (result : JsVal) : option ValidationIssue :=
  if negb (truthy result) || negb (typeof_object result) then None
  else if negb (has_property "message" result) then None
  else Some {|
    i_ruleId := js_or (get_own "ruleId" result) (JStr ruleId);
    i_ruleDescription := js_or (get_own "ruleDescription" result) (JStr ruleName);
    i_severity := js_or (get_own "severity" result) (JStr (severity_value sev));
    i_path := js_or (get_own "path" result) (JStr "root");
    i_line := js_or (get_own "line" result) JUndefined;
    i_column := js_or (get_own "column" result) JUndefined;
    i_message := js_or (get_own "message" result) (JStr EmptyString);
    i_suggestion := js_or (get_own "suggestion" result) JUndefined;
    i_category := js_or (get_own "category" result) JUndefined;
  |}.

Definition normalizeResults (results : JsVal) (ruleId ruleName : string)
    (sev : IssueSeverity) : list ValidationIssue :=
  match results with
  | JArr elems => omap (normalizeOne ruleId ruleName sev) elems
  | _ => []
  end.

Definition Outcome : Type := list ValidationIssue * RuleExecutionStats.

(** The only statement of the [try] block that can throw is the call of the
    rule function, and [stats] is not assigned before it on that path: the
    [catch] block sees the initial [stats].  The [catch] block itself
    converts the thrown value with [String] when it is not an [Error], and
    that conversion is not protected. *)
Definition executeRule (registry : RuleRegistry.t) (ruleId : string)
    (spec : JsVal) (defaultSeverity : option IssueSeverity) : Exc Thrown Outcome :=
  let stats := mkStats ruleId false 0 None in
  try_catch
    (match RuleRegistry.get registry ruleId with
     | None =>
         Ret ([], mkStats ruleId false 0
                    (Some ("Rule " +:+ dquote +:+ ruleId +:+ dquote +:+ " not found")))
     | Some rule =>
         if negb (RuleRegistry.isEnabled registry ruleId) then Ret ([], stats)
         else
           match RuleRegistry.getEffectiveRule registry ruleId defaultSeverity with
           | None =>
               Ret ([], mkStats ruleId false 0
                          (Some ("Could not resolve rule configuration for "
                                 +:+ dquote +:+ ruleId +:+ dquote)))
           | Some effectiveRule =>
               rawResults ← fn effectiveRule spec (options effectiveRule);
               let issues :=
                 normalizeResults rawResults ruleId (name rule) (severity effectiveRule) in
               Ret (issues, mkStats ruleId true (length issues) None)
           end
     end)
    (λ error,
       message ← thrown_message error;
       Ret ([], mkStats ruleId false 0 (Some message))).

(** The [for ... of toExecute] loop with its two accumulators. *)
Fixpoint executeLoop (registry : RuleRegistry.t) (spec : JsVal)
    (defaultSeverity : option IssueSeverity) (toExecute : list string)
    (allIssues : list ValidationIssue) (executionStats : list RuleExecutionStats)
    : Exc Thrown (list ValidationIssue * list RuleExecutionStats) :=
  match toExecute with
  | [] => Ret (allIssues, executionStats)
  | ruleId :: rest =>
      r ← executeRule registry ruleId spec defaultSeverity;
      executeLoop registry spec defaultSeverity rest
        (allIssues ++ r.1) (executionStats ++ [r.2])
  end.

Definition executeAll (registry : RuleRegistry.t) (spec : JsVal)
    (ruleIds : option (list string)) (defaultSeverity : option IssueSeverity)
    : Exc Thrown (list ValidationIssue * list RuleExecutionStats) :=
  let toExecute := default (RuleRegistry.getAllIds registry) ruleIds in
  executeLoop registry spec defaultSeverity toExecute [] [].

End RuleEngine.

(** ** Configuration model (interfaces/Config.ts, errors/ConfigError.ts) *)

(** [string | string[]] *)
Inductive OneOrMany : Type :=
| One (s : string)
| Many (l : list string).

Record FileConfig : Type := mkFile {
  pattern : string;
  ignore : option (list string);
  file_rules : option OneOrMany;
}.

Record RulesetDefinition : Type := mkRuleset {
  rs_rules : option (gmap string RuleSetting);
  rs_extends : option OneOrMany;
  rs_defaultSeverity : option IssueSeverity;
}.

(** What a [rulesets] dictionary can hold at run time: a ruleset
    definition, or the member of [Object.prototype] that a lookup of an
    inherited name in the preset table hands back (see
    [getPresetRuleset]). *)
Inductive RulesetEntry : Type :=
| RulesetDef (d : RulesetDefinition)
| PrototypeMember (member : string).

(** [ApiGuardianConfig].  [custom] holds the properties admitted by the
    index signature, that is, all keys other than the seven named ones. *)
Record ApiGuardianConfig : Type := mkConfig {
  extends : option OneOrMany;
  rules : option (gmap string RuleSetting);
  rulesets : option (gmap string RulesetEntry);
  files : option (list FileConfig);
  defaultSeverity : option IssueSeverity;
  failOnWarnings : option bool;
  showInfo : option bool;
  custom : gmap string JsVal;
}.

(** The fields of a [ConfigError] that the resolver fills in. *)
Record ConfigError : Type := mkConfigError {
  ce_message : string;
  ce_property : string;
  ce_value : string;
  ce_expectedFormat : string;
  ce_constraint : string;
  ce_suggestion : option string;
}.

(** ** Presets (config/defaults.ts) *)

Module Defaults.

Definition on (s : IssueSeverity) : RuleSetting :=
  SettingConfig (mkRuleConfig (Some s) (Some true) None).

Definition STRICT_RULESET : RulesetDefinition :=
  mkRuleset
    (Some (list_to_map
      [ ("paths-required", SettingBool true);
        ("info-required", SettingBool true);
        ("operation-id-required", SettingBool true);
        ("operation-tags-required", SettingBool true);
        ("operation-description-required", SettingBool true);
        ("schema-properties-required", SettingBool true);
        ("operation-description", on ERROR);
        ("operation-summary", on WARNING);
        ("parameter-description", on WARNING);
        ("schema-description", on WARNING);
        ("path-naming-convention",
           SettingConfig (mkRuleConfig (Some ERROR) (Some true)
                            (Some {[ "casing" := JStr "kebab" ]})));
        ("http-status-codes", on ERROR);
        ("success-response-required", on ERROR);
        ("error-response-required", on ERROR);
        ("version-format", on ERROR);
        ("contact-info-required", on WARNING);
        ("no-api-key-in-url", on ERROR);
        ("require-correlation-id", on ERROR) ]%string))
    None
    (Some ERROR).

Definition STANDARD_RULESET : RulesetDefinition :=
  mkRuleset
    (Some (list_to_map
      [ ("operation-summary", on INFO);
        ("parameter-description", on INFO);
        ("schema-description", on INFO);
        ("contact-info-required", on INFO) ]%string))
    (Some (One "strict"))
    (Some WARNING).

Definition LENIENT_RULESET : RulesetDefinition :=
  mkRuleset
    (Some (list_to_map
      [ ("paths-required", SettingBool true);
        ("info-required", SettingBool true);
        ("operation-tags-required", SettingBool true);
        ("operation-description-required", SettingBool true);
        ("http-status-codes", on WARNING);
        ("success-response-required", on WARNING);
        ("no-api-key-in-url", on ERROR) ]%string))
    None
    (Some WARNING).

(** The object literal in [getPresetRuleset], own properties only. *)
Definition preset_table : gmap string RulesetDefinition :=
  list_to_map
    [ ("strict", STRICT_RULESET);
      ("standard", STANDARD_RULESET);
      ("lenient", LENIENT_RULESET) ]%string.

Definition DEFAULT_CONFIG : ApiGuardianConfig :=
  mkConfig None None
    (Some (RulesetDef <$> preset_table))
    (Some [ mkFile "openapi.{json,yaml,yml}" None None;
            mkFile "api/**/*.{json,yaml,yml}"
              (Some ["**/node_modules/**"; "**/.git/**"]%string) None ])
    (Some WARNING) (Some false) (Some true) ∅.

(** [rulesets[level] ?? null].  [rulesets] is an ordinary object literal, so
    the property read falls through to [Object.prototype] when [level] is
    not one of its three own keys: for an inherited name the result is that
    member (a function, or the prototype object itself for [__proto__]),
    which is neither null nor undefined. *)
Definition getPresetRuleset (level : string) : option RulesetEntry :=
  match preset_table !! level with
  | Some d => Some (RulesetDef d)
  | None => if inherited level then Some (PrototypeMember level) else None
  end.

(** [mergeRulesets] *)
Definition mergeRulesets (parent child : RulesetDefinition) : RulesetDefinition :=
  mkRuleset
    (Some (spread2 (rs_rules parent) (rs_rules child)))
    (nullish (rs_extends child) (rs_extends parent))
    (nullish (rs_defaultSeverity child) (rs_defaultSeverity parent)).

End Defaults.

(** ** Configuration resolver (config/ConfigParser.ts) *)

Module ConfigParser.

Import Defaults.

(** [s.includes(c)] for a one-character needle. *)
Fixpoint includes_char (c : ascii) (s : string) : bool :=
  match s with
  | EmptyString => false
  | String c' rest => Ascii.eqb c c' || includes_char c rest
  end.

(** [s.split(sep)] for a one-character separator: never empty. *)
Fixpoint split (sep : ascii) (s : string) : list string :=
  match s with
  | EmptyString => [EmptyString]
  | String c rest =>
      if Ascii.eqb c sep then EmptyString :: split sep rest
      else match split sep rest with
           | [] => [String c EmptyString]
           | piece :: pieces => String c piece :: pieces
           end
  end.

Definition slash : ascii := ascii_of_nat 47.
Definition backslash : ascii := ascii_of_nat 92.
Definition colon : ascii := ascii_of_nat 58.

(** A value used as a computed property key or interpolated in a template:
    undefined becomes the text "undefined". *)
Definition key_of (s : option string) : string := default "undefined"%string s.

Definition fixed_keys : list string :=
  [ "defaultSeverity"; "failOnWarnings"; "showInfo"; "files"; "rules";
    "rulesets"; "extends" ]%string.

(** [mergeConfigs].  The result is a fresh object literal: it has no
    [extends] key, [rules] and [rulesets] are always objects, and of the
    remaining keys only the child's survive.  Those are collected with
    [acc[key] = value] into a fresh object that is then spread: for the key
    [__proto__] the assignment goes to the setter inherited from
    [Object.prototype] and adds no own property, so that key is not carried
    over.  The source tests
    [defaultSeverity] and [files] with [??] and the two booleans with
    [!== undefined]; the two tests differ on [null] only, which the declared
    field types exclude. *)
Definition mergeConfigs (parent child : ApiGuardianConfig) : ApiGuardianConfig :=
  {| extends := None;
     defaultSeverity := nullish (defaultSeverity child) (defaultSeverity parent);
     failOnWarnings :=
       match failOnWarnings child with
       | Some b => Some b
       | None => failOnWarnings parent
       end;
     showInfo :=
       match showInfo child with
       | Some b => Some b
       | None => showInfo parent
       end;
     files := nullish (files child) (files parent);
     rules := Some (spread2 (rules parent) (rules child));
     rulesets := Some (spread2 (rulesets parent) (rulesets child));
     custom :=
       filter (λ kv, kv.1 ≠ "__proto__"%string)
         (filter (λ kv, negb (existsb (String.eqb kv.1) fixed_keys) = true)
            (custom child)) |}.

Definition unknownPreset (ext : string) : ConfigError :=
  {| ce_message := "Unknown preset ruleset: " +:+ ext;
     ce_property := "extends";
     ce_value := ext;
     ce_expectedFormat := "api-guardian:strict|standard|lenient or valid file path";
     ce_constraint := "must reference valid preset or file";
     ce_suggestion :=
       Some "Use one of: api-guardian:strict, api-guardian:standard, api-guardian:lenient"
  |}%string.

Definition unknownNamespace (namespace ext : string) : ConfigError :=
  {| ce_message := "Unknown extends namespace: " +:+ namespace;
     ce_property := "extends";
     ce_value := ext;
     ce_expectedFormat := "api-guardian:preset or spectral:preset";
     ce_constraint := "must use known namespace";
     ce_suggestion :=
       Some "Use api-guardian:strict, api-guardian:standard, or api-guardian:lenient"
  |}%string.

(** How a run of the resolver ends.  The source recurses into extended
    files without any bound; [Diverges] is what is left of a run when the
    recursion budget of the model is used up. *)
Inductive Res (A : Type) : Type :=
| Done (a : A)
| Fails (e : ConfigError)
| Diverges.
Arguments Done {A} a.
Arguments Fails {A} e.
Arguments Diverges {A}.

(** The result of one pass through the loop body up to the merge:
    an [extConfig], or [continue]. *)
Inductive Entry : Type :=
| Extension (extConfig : ApiGuardianConfig)
| Skip.

Abbreviation Cache := (gmap string ApiGuardianConfig).

Section Resolver.

(** The file system as [loadConfig] sees it: the outcome of
    exists/read/parse/[validateConfig] for a path (a configuration, or the
    [ConfigError] raised by the failing step). *)
Variable disk : string → Exc ConfigError ApiGuardianConfig.

(** [path.resolve(path.dirname(basePath), ext)] *)
Variable resolve : string → string → string.

(** [loadConfig]: the cache [loadedConfigs] is consulted first and filled
    after a successful load. *)
Definition loadConfig (filePath : string) (cache : Cache)
    : Exc ConfigError ApiGuardianConfig * Cache :=
  match cache !! filePath with
  | Some config => (Ret config, cache)
  | None =>
      match disk filePath with
      | Ret config => (Ret config, <[filePath := config]> cache)
      | Throw e => (Throw e, cache)
      end
  end.

(** The body of the [for] loop of [resolveExtends] for one entry; [rec] is
    the recursive call. *)
Definition resolveEntry
    (rec : ApiGuardianConfig → string → Cache → Res ApiGuardianConfig * Cache)
    (basePath ext : string) (cache : Cache) : Res Entry * Cache :=
  if includes_char slash ext || includes_char backslash ext then
    let extPath := resolve basePath ext in
    match loadConfig extPath cache with
    | (Throw e, cache1) => (Fails e, cache1)
    | (Ret loadedConfig, cache1) =>
        match rec loadedConfig extPath cache1 with
        | (Done extConfig, cache2) => (Done (Extension extConfig), cache2)
        | (Fails e, cache2) => (Fails e, cache2)
        | (Diverges, cache2) => (Diverges, cache2)
        end
    end
  else
    let parts := split colon ext in
    let namespace := key_of (parts !! 0%nat) in
    let preset := parts !! 1%nat in
    if String.eqb namespace "api-guardian" || String.eqb namespace "preset" then
      match getPresetRuleset (key_of preset) with
      | None => (Fails (unknownPreset ext), cache)
      | Some ruleset =>
          (Done (Extension
             (mkConfig None None (Some {[ key_of preset := ruleset ]})
                None None None None ∅)), cache)
      end
    else if String.eqb namespace "spectral" then (Done Skip, cache)
    else (Fails (unknownNamespace namespace ext), cache).

(** The loop over [extendsArray] with its accumulator [merged], followed by
    the final merge of the document itself. *)
Fixpoint extendsLoop
    (rec : ApiGuardianConfig → string → Cache → Res ApiGuardianConfig * Cache)
    (config : ApiGuardianConfig) (basePath : string)
    (extendsArray : list string) (merged : ApiGuardianConfig) (cache : Cache)
    : Res ApiGuardianConfig * Cache :=
  match extendsArray with
  | [] => (Done (mergeConfigs merged config), cache)
  | ext :: rest =>
      match resolveEntry rec basePath ext cache with
      | (Done (Extension extConfig), cache') =>
          extendsLoop rec config basePath rest (mergeConfigs merged extConfig) cache'
      | (Done Skip, cache') =>
          extendsLoop rec config basePath rest merged cache'
      | (Fails e, cache') => (Fails e, cache')
      | (Diverges, cache') => (Diverges, cache')
      end
  end.

(** [!config.extends] holds for a missing field and for the empty string;
    otherwise a single string stands for a one-element array. *)
Definition extendsArray (config : ApiGuardianConfig) : option (list string) :=
  match extends config with
  | None => None
  | Some (One s) => if String.eqb s EmptyString then None else Some [s]
  | Some (Many l) => Some l
  end.

Fixpoint resolveExtends (fuel : nat) (config : ApiGuardianConfig)
    (basePath : string) (cache : Cache) : Res ApiGuardianConfig * Cache :=
  match extendsArray config with
  | None => (Done config, cache)
  | Some exts =>
      match fuel with
      | O => (Diverges, cache)
      | S fuel' =>
          extendsLoop (resolveExtends fuel') config basePath exts DEFAULT_CONFIG cache
      end
  end.

(** [loadAndResolve], without the [configPath] stamp. *)
Definition loadAndResolve (fuel : nat) (filePath : string) (cache : Cache)
    : Res ApiGuardianConfig * Cache :=
  match loadConfig filePath cache with
  | (Throw e, cache1) => (Fails e, cache1)
  | (Ret config, cache1) => resolveExtends fuel config filePath cache1
  end.

End Resolver.

(** *** Loading a file: parsing and shape validation *)

(** [ConfigErrorDetails]; [value] is [unknown] in the source and holds the
    offending value itself, or its [typeof]. *)
Record ConfigErrorDetails : Type := mkDetails {
  d_property : option string;
  d_value : option JsVal;
  d_expectedFormat : option string;
  d_constraint : option string;
}.

(** A [ConfigError] as the loading code builds it ([isRecoverable] defaults
    to true in the constructor). *)
Record ConfigFault : Type := mkFault {
  cf_message : string;
  cf_details : ConfigErrorDetails;
  cf_suggestion : option string;
  cf_isRecoverable : bool;
}.

(** What the loading code can throw: a [ConfigError], or anything else. *)
Inductive Raised : Type :=
| ConfigErr (e : ConfigFault)
| OtherErr (t : Thrown).

Definition squote : string := String (ascii_of_nat 39) EmptyString.

(** [v.k] for one of the keys read below: a [TypeError] on null and
    undefined, the own property of an object, undefined on anything else
    (none of the keys is inherited or an index). *)
Definition member (k : string) (v : JsVal) : Exc Raised JsVal :=
  match v with
  | JNull =>
      Throw (OtherErr (ThrownError
        ("Cannot read properties of null (reading " +:+ squote +:+ k +:+ squote +:+ ")")))
  | JUndefined =>
      Throw (OtherErr (ThrownError
        ("Cannot read properties of undefined (reading " +:+ squote +:+ k +:+ squote +:+ ")")))
  | _ => Ret (get_own k v)
  end.

Definition is_undefined (v : JsVal) : bool :=
  match v with JUndefined => true | _ => false end.

Definition is_string (v : JsVal) : bool := String.eqb (typeof v) "string".

(** [Array.isArray(exts) && exts.every((e) => typeof e === 'string')] *)
Definition string_array (v : JsVal) : bool :=
  match v with
  | JArr elems => forallb is_string elems
  | _ => false
  end.

Definition invalid (what property : string) (value : JsVal)
    (expected constraint : string) : Raised :=
  ConfigErr
    (mkFault ("Invalid config: " +:+ dquote +:+ property +:+ dquote +:+ what)
       (mkDetails (Some property) (Some value) (Some expected) (Some constraint))
       None true).

(** [validateConfig]: returns true or throws. *)
Definition validateConfig (config : JsVal) : Exc Raised bool :=
  exts ← member "extends" config;
  _ ← (if negb (is_undefined exts) && negb (is_string exts) && negb (string_array exts)
       then Throw (invalid " must be a string or array of strings" "extends" exts
                     "string | string[]" "must contain only strings")
       else Ret tt);
  rules ← member "rules" config;
  _ ← (if negb (is_undefined rules) && negb (String.eqb (typeof rules) "object")
       then Throw (invalid " must be an object" "rules" (JStr (typeof rules))
                     "Record<string, RuleConfig>"
                     "must be an object with rule configurations")
       else Ret tt);
  rulesets ← member "rulesets" config;
  _ ← (if negb (is_undefined rulesets) && negb (String.eqb (typeof rulesets) "object")
       then Throw (invalid " must be an object" "rulesets" (JStr (typeof rulesets))
                     "Record<string, RulesetDefinition>"
                     "must be an object with ruleset definitions")
       else Ret tt);
  files ← member "files" config;
  _ ← (if negb (is_undefined files) && negb (isArray files)
       then Throw (invalid " must be an array" "files" (JStr (typeof files))
                     "FileConfig[]" "must be an array of file configurations")
       else Ret tt);
  failOnWarnings ← member "failOnWarnings" config;
  _ ← (if negb (is_undefined failOnWarnings)
          && negb (String.eqb (typeof failOnWarnings) "boolean")
       then Throw (invalid " must be a boolean" "failOnWarnings"
                     (JStr (typeof failOnWarnings)) "boolean" "must be true or false")
       else Ret tt);
  showInfo ← member "showInfo" config;
  _ ← (if negb (is_undefined showInfo) && negb (String.eqb (typeof showInfo) "boolean")
       then Throw (invalid " must be a boolean" "showInfo" (JStr (typeof showInfo))
                     "boolean" "must be true or false")
       else Ret tt);
  Ret true.

Definition parseFailed (format message : string) : Raised :=
  ConfigErr
    (mkFault ("Failed to parse config " +:+ format +:+ ": " +:+ message)
       (mkDetails (Some "root") None (Some ("valid " +:+ format))
          (Some ("must be valid " +:+ format +:+ " syntax")))
       None true)%string.

Section Loading.

(** [yaml.load], [JSON.parse], and the file system calls of [loadConfig];
    [extension] is [path.extname(filePath).toLowerCase()].  The three that
    can fail do so by throwing an [Error] instance (a [YAMLException], a
    [SyntaxError], a system error), given here by its message: in the
    handlers below [error instanceof Error] holds and the message is
    [error.message]. *)
Variable yaml_load : string → Exc string JsVal.
Variable JSON_parse : string → Exc string JsVal.
Variable existsSync : string → bool.
Variable readFileSync : string → Exc string string.
Variable extension : string → string.

(** [parseYAML]: the [throw] inside the [try] block is caught by the
    [catch] of the same statement and wrapped like a parser error; the
    [catch] block throws the [ConfigError]. *)
Definition parseYAML (content : string) : Exc Raised JsVal :=
  match
    (parsed ← yaml_load content;
     match parsed with
     | JNull | JUndefined => Ret (JObj [])
     | _ =>
         if negb (String.eqb (typeof parsed) "object")
         then Throw "YAML did not parse to an object"%string
         else Ret parsed
     end)
  with
  | Ret parsed => Ret parsed
  | Throw message => Throw (parseFailed "YAML" message)
  end.

Abbreviation RawCache := (gmap string JsVal).

(** [loadConfig] on the parsed value, before it is cast to
    [ApiGuardianConfig]: cache, existence check, read, parse by extension,
    shape validation, cache update. *)
Definition loadConfigRaw (filePath : string) (cache : RawCache)
    : Exc Raised JsVal * RawCache :=
  match cache !! filePath with
  | Some config => (Ret config, cache)
  | None =>
      if negb (existsSync filePath) then
        (Throw (ConfigErr
           (mkFault ("Config file not found: " +:+ filePath)
              (mkDetails (Some "configPath") (Some (JStr filePath))
                 (Some "valid file path") (Some "file must exist"))
              (Some ("Check that the config file exists at: " +:+ filePath))
              true)), cache)%string
      else
        match readFileSync filePath with
        | Throw message =>
            (Throw (ConfigErr
               (mkFault ("Failed to read config file: " +:+ message)
                  (mkDetails (Some "configPath") (Some (JStr filePath))
                     (Some "readable file") (Some "must have read permissions"))
                  (Some ("Check file permissions for: " +:+ filePath))
                  false)), cache)%string
        | Ret content =>
            let parsed :=
              if String.eqb (extension filePath) ".json" then
                match JSON_parse content with
                | Ret v => Ret v
                | Throw message => Throw (parseFailed "JSON" message)
                end
              else parseYAML content in
            match parsed ≫= (λ v, validateConfig v ≫= (λ _, Ret v)) with
            | Ret config => (Ret config, <[filePath := config]> cache)
            | Throw raised => (Throw raised, cache)
            end
        end
  end.

End Loading.

(** [clearCache] *)
Definition clearCache (cache : Cache) : Cache := ∅.

(** *** Command-line overrides *)

(** [ResolvedConfig]: a configuration with its provenance. *)
Record ResolvedConfig : Type := mkResolved {
  resolved : ApiGuardianConfig;
  configPath : option string;
  resolvedRules : option (gmap string RuleConfig);
  activeRuleset : option string;
}.

Record CliOverrides : Type := mkCli {
  cli_configPath : option string;
  cli_ruleset : option string;
  cli_failSeverity : option IssueSeverity;
  cli_ignorePaths : option (list string);
  cli_format : option string;
  cli_outputPath : option string;
  cli_fix : option bool;
  cli_watch : option bool;
  cli_verbose : option bool;
}.

(** Truthiness of an optional string and of an optional boolean. *)
Definition given_string (s : option string) : option string :=
  match s with
  | Some x => if String.eqb x EmptyString then None else Some x
  | None => None
  end.
Definition flag (b : option bool) : bool := default false b.

(** [obj[k] = v] on a dictionary: an assignment to [__proto__] goes to the
    inherited setter and adds no own property. *)
Definition assign {V} (k : string) (v : V) (obj : gmap string V) : gmap string V :=
  if String.eqb k "__proto__" then obj else <[k := v]> obj.

Definition with_rulesets (rs : option (gmap string RulesetEntry))
    (c : ApiGuardianConfig) : ApiGuardianConfig :=
  mkConfig (extends c) (rules c) rs (files c) (defaultSeverity c)
    (failOnWarnings c) (showInfo c) (custom c).

Definition with_files (fs : option (list FileConfig))
    (c : ApiGuardianConfig) : ApiGuardianConfig :=
  mkConfig (extends c) (rules c) (rulesets c) fs (defaultSeverity c)
    (failOnWarnings c) (showInfo c) (custom c).

(** An assignment to a property the interfaces do not declare. *)
Definition with_custom (k : string) (v : JsVal)
    (c : ApiGuardianConfig) : ApiGuardianConfig :=
  mkConfig (extends c) (rules c) (rulesets c) (files c) (defaultSeverity c)
    (failOnWarnings c) (showInfo c) (<[k := v]> (custom c)).

(** [ConfigParser.applyOverrides].  The result starts as a shallow copy of
    [config]; each [if] of the source is one step below.  (The copy shares
    its [rulesets] object with [config], so the ruleset step also changes
    the argument; only the returned value is modelled.) *)
Definition applyOverrides (config : ResolvedConfig) (overrides : CliOverrides)
    : ResolvedConfig :=
  let result := config in
  let result :=
    match given_string (cli_ruleset overrides) with
    | Some name =>
        match getPresetRuleset name with
        | Some ruleset =>
            mkResolved
              (with_rulesets
                 (Some (assign name ruleset (default ∅ (rulesets (resolved result)))))
                 (resolved result))
              (configPath result) (resolvedRules result) (Some name)
        | None => result
        end
    | None => result
    end in
  let result :=
    match cli_ignorePaths overrides, files (resolved result) with
    | Some ignorePaths, Some fs =>
        mkResolved
          (with_files
             (Some ((λ file, mkFile (pattern file)
                               (Some (default [] (ignore file) ++ ignorePaths))
                               (file_rules file)) <$> fs))
             (resolved result))
          (configPath result) (resolvedRules result) (activeRuleset result)
    | _, _ => result
    end in
  let set k v (r : ResolvedConfig) :=
    mkResolved (with_custom k v (resolved r))
      (configPath r) (resolvedRules r) (activeRuleset r) in
  let result :=
    match given_string (cli_format overrides) with
    | Some format => set "outputFormat"%string (JStr format) result
    | None => result
    end in
  let result := if flag (cli_verbose overrides) then set "verbose"%string (JBool true) result else result in
  let result := if flag (cli_watch overrides) then set "watch"%string (JBool true) result else result in
  let result := if flag (cli_fix overrides) then set "fix"%string (JBool true) result else result in
  result.

End ConfigParser.

(** ** Built-in rules (rules/builtIn.ts) *)

Module BuiltIn.

(** The twenty built-in rules with their identity, severity and category
    as declared; none declares [enabled], [fixable] or [options].  The
    function bodies are opaque to the registry and the engine and are
    supplied by [body], indexed by rule id. *)
Section Bodies.

Variable body : string → RuleFunction.

Definition builtin (ruleId ruleName ruleDescription : string)
    (sev : IssueSeverity) (c : RuleCategory) : Rule :=
  mkRule ruleId ruleName ruleDescription sev c None None (body ruleId) None.

Definition BUILTIN_RULES : list Rule :=
  [ builtin "info-required" "Info Object Required"
      "OpenAPI specification must contain an info object" ERROR STRUCTURAL;
    builtin "openapi-version-valid" "Valid OpenAPI Version"
      "OpenAPI version must be 3.0.x or 3.1.x" ERROR STRUCTURAL;
    builtin "paths-required" "Paths Object Required"
      "OpenAPI specification must contain at least one path" ERROR STRUCTURAL;
    builtin "operation-responses" "Operation Responses Required"
      "All operations must define at least one response" ERROR STRUCTURAL;
    builtin "components-schema" "Reusable Components Should Be Used"
      "Reusable schema definitions should be in components" WARNING STRUCTURAL;
    builtin "info-title" "Info Title Required"
      "API title must be defined in info object" ERROR DOCUMENTATION;
    builtin "info-version" "Info Version Required"
      "API version must be defined in info object" ERROR DOCUMENTATION;
    builtin "operation-description" "Operation Description Required"
      "All operations should have a description" WARNING DOCUMENTATION;
    builtin "api-description" "API Description Required"
      "API should have a description in the info object" WARNING DOCUMENTATION;
    builtin "path-naming-convention" "Path Naming Convention"
      "Path segments should follow REST naming conventions (lowercase, kebab-case)"
      INFO REST;
    builtin "http-method-semantics" "HTTP Method Semantics"
      "HTTP methods should follow REST semantics" WARNING REST;
    builtin "request-body-documentation" "Request Body Should Be Documented"
      "POST/PUT/PATCH operations should document request body" WARNING REST;
    builtin "status-code-documentation" "All Status Codes Should Be Documented"
      "Each operation should document common status codes" INFO REST;
    builtin "api-contact-info" "Contact Information Required"
      "API should provide contact information" INFO GOVERNANCE;
    builtin "semantic-versioning" "Semantic Versioning"
      "API version should follow semantic versioning format" WARNING GOVERNANCE;
    builtin "parameter-naming" "Parameter Naming Convention"
      "Parameters should follow camelCase naming convention" INFO GOVERNANCE;
    builtin "schema-documentation" "Schema Objects Should Be Documented"
      "Reusable schema objects should have descriptions" INFO GOVERNANCE;
    builtin "security-definition" "Security Definition"
      "API should define security schemes if using authentication" WARNING SECURITY;
    builtin "no-hardcoded-secrets" "No Hardcoded Secrets"
      "Example values should not contain passwords or secrets" ERROR SECURITY;
    builtin "explicit-error-responses" "Explicit Error Responses"
      "Operations should define explicit error responses" INFO SECURITY ]%string.

End Bodies.

End BuiltIn.

(** ** Orchestrator (validator/Validator.ts) *)

Module Validator.

(** What [validate] expects the loader call to resolve to: it reads
    [success], [spec], [warnings] and [error] of the result. *)
Record LoadedSpec : Type := mkLoaded {
  ld_spec : JsVal;
  ld_warnings : option (list string);
  success : bool;
  ld_error : option string;
}.

Record t : Type := mk {
  registry : RuleRegistry.t;
  config : option ApiGuardianConfig;
}.

Record ResultStats : Type := mkResultStats {
  rulesExecuted : nat;
  rs_issuesFound : nat;
}.

Record Metadata : Type := mkMetadata {
  configPath : option string;
  ruleCount : nat;
  warnings : option (list string);
  md_error : option string;
}.

(** The object literal [validate] returns ([spec: null] is [JNull]). *)
Record ValidationResult : Type := mkResult {
  spec : JsVal;
  valid : bool;
  issues : list RuleEngine.ValidationIssue;
  stats : ResultStats;
  metadata : Metadata;
}.

(** [this.specLoader.load(specPath)].  [this.specLoader] is an instance of
    the class [SpecLoader] of loader/SpecLoader.ts, whose methods are
    [loadSpec] and [loadSpecs]: it has no [load], so the property read gives
    undefined and the call is a [TypeError], raised inside the [try]
    block. *)
Definition specLoader_load (specPath : string) : Exc Thrown LoadedSpec :=
  Throw (ThrownError "this.specLoader.load is not a function").

Definition is_error (i : RuleEngine.ValidationIssue) : bool :=
  strict_eq_str (RuleEngine.i_severity i) (severity_value ERROR).

Definition provided (v : t) : option string :=
  match config v with
  | Some _ => Some "provided"%string
  | None => None
  end.

Definition validate (v : t) (specPath : string)
    (defaultSeverity : option IssueSeverity) : Exc Thrown ValidationResult :=
  try_catch
    (loadResult ← specLoader_load specPath;
     if negb (success loadResult) then
       Ret (mkResult JNull false [] (mkResultStats 0 0)
              (mkMetadata (provided v) (RuleRegistry.getCount (registry v))
                 (ld_warnings loadResult) (ld_error loadResult)))
     else
       let spec := ld_spec loadResult in
       let enabledRuleIds :=
         List.filter (RuleRegistry.isEnabled (registry v))
           (RuleRegistry.getAllIds (registry v)) in
       r ← RuleEngine.executeAll (registry v) spec (Some enabledRuleIds)
             (Some (default WARNING defaultSeverity));
       let errorCount := length (List.filter is_error r.1) in
       let valid := Nat.eqb errorCount 0 in
       Ret (mkResult spec valid r.1
              (mkResultStats (length (List.filter RuleEngine.executed r.2)) (length r.1))
              (mkMetadata (provided v) (RuleRegistry.getCount (registry v))
                 (ld_warnings loadResult) None)))
    (λ error,
       message ← thrown_message error;
       Ret (mkResult JNull false [] (mkResultStats 0 0)
              (mkMetadata (provided v) (RuleRegistry.getCount (registry v))
                 None (Some message)))).

(** [ValidatorConfig] *)
Record ValidatorConfig : Type := mkValidatorConfig {
  vc_config : option (ApiGuardianConfig + string);
  useBuiltInRules : option bool;
  customRules : option (list Rule);
}.

(** Truthiness of [validatorConfig?.config]: a configuration object, or a
    non-empty path. *)
Definition config_given (validatorConfig : option ValidatorConfig) : bool :=
  match validatorConfig ≫= vc_config with
  | Some (inl _) => true
  | Some (inr filePath) => negb (String.eqb filePath EmptyString)
  | None => false
  end.

Section Construct.

Variable body : string → RuleFunction.

(** The constructor.  The class defines [initializeConfigAsync] but the
    constructor calls [this.initializeConfig], which no class in the
    hierarchy defines: the call is a [TypeError], and [this.config] is never
    assigned.  The registry is built afterwards: built-in rules unless
    [useBuiltInRules] is false, then the custom rules, then the overrides
    of [this.config?.rules]. *)
Definition construct (validatorConfig : option ValidatorConfig) : Exc Thrown t :=
  config ← (if config_given validatorConfig
            then Throw (ThrownError "this.initializeConfig is not a function")
            else Ret (None : option ApiGuardianConfig));
  reg1 ← (if bool_decide (validatorConfig ≫= useBuiltInRules = Some false)
          then Ret RuleRegistry.empty
          else RuleRegistry.registerBatch (BuiltIn.BUILTIN_RULES body) RuleRegistry.empty);
  reg2 ← match validatorConfig ≫= customRules with
         | Some rs => RuleRegistry.registerBatch rs reg1
         | None => Ret reg1
         end;
  let reg3 :=
    match config ≫= rules with
    | Some ruleConfigs => RuleRegistry.applyOverrides (map_to_list ruleConfigs) reg2
    | None => reg2
    end in
  Ret (mk reg3 config).

End Construct.

End Validator.

(** ** Scenarios and the claims' own formulas

    Concrete registries, rules and configurations used to run the model,
    and the definitions that follow the wording of a claim rather than the
    source (each says so). *)

Module Fixtures.

Import RuleRegistry.

(** A rule whose function reports nothing. *)
Definition quiet (ruleId : string) (sev : IssueSeverity) : Rule :=
  mkRule ruleId "Test Rule" "A test rule" sev STRUCTURAL (Some true) None
    (λ _ _, Ret (JArr [])) None.

Definition registerOrKeep (rule : Rule) (reg : t) : t :=
  match register rule reg with
  | Ret reg' => reg'
  | Throw _ => reg
  end.

(** A registry holding the single rule [R] with base severity [error]. *)
Definition regR : t := registerOrKeep (quiet "R" ERROR) empty.

(** The override a setting stands for. *)
Definition as_config (s : RuleSetting) : RuleConfig :=
  match s with
  | SettingBool b => mkRuleConfig None (Some b) None
  | SettingConfig c => c
  end.

(** The severity the claim announces, in its own words:
    [override.severity ?? defaultSeverity ?? rule.severity], where a missing
    override contributes no severity. *)
Definition claimed_severity (override : option RuleConfig)
    (defaultSeverity : option IssueSeverity) (rule : Rule) : IssueSeverity :=
  default (default (severity rule) defaultSeverity) (override ≫= rc_severity).

(** C7 in its own words: the second override merged onto the first, a
    field absent from the second keeping the first's value. *)
Definition merged_override (o1 o2 : RuleConfig) : RuleConfig :=
  mkRuleConfig (nullish (rc_severity o2) (rc_severity o1))
               (nullish (rc_enabled o2) (rc_enabled o1))
               (nullish (rc_options o2) (rc_options o1)).

Definition severityOnly (s : IssueSeverity) : RuleConfig :=
  mkRuleConfig (Some s) None None.

Definition enabledOnly (b : bool) : RuleConfig :=
  mkRuleConfig None (Some b) None.

(** [hay] contains [needle]. *)
Definition contains (needle hay : string) : Prop :=
  ∃ pre post, hay = pre +:+ needle +:+ post.

(** A rule whose function throws [new Error("boom")]. *)
Definition boomRule : Rule :=
  mkRule "boom-rule" "Boom Rule" "A rule that throws" ERROR STRUCTURAL None None
    (λ _ _, Throw (ThrownError "boom")) None.

(** A rule that always reports [[{message: "x"}]]. *)
Definition xRule : Rule :=
  mkRule "x-rule" "X Rule" "Reports x" WARNING DOCUMENTATION None None
    (λ _ _, Ret (JArr [JObj [("message", JStr "x")]%string])) None.

(** A rule switched off at registration. *)
Definition offRule : Rule :=
  mkRule "off-rule" "Off Rule" "Disabled" INFO REST (Some false) None
    (λ _ _, Ret (JArr [JObj [("message", JStr "never")]%string])) None.

Definition regBatch : t :=
  match registerBatch [boomRule; xRule; offRule] empty with
  | Ret reg => reg
  | Throw _ => empty
  end.

(** How one field of a normalized issue relates to the raw element: the
    element's own value when it has the property with a truthy value, the
    engine's default when the property is missing or its value is falsy. *)
Definition field_from (props : list (string * JsVal)) (k : string)
    (dflt val : JsVal) : Prop :=
  (∀ v, assoc k props = Some v → truthy v = true → val = v) ∧
  (∀ v, assoc k props = Some v → truthy v = false → val = dflt) ∧
  (assoc k props = None → val = dflt).

(** A rule that always reports one issue at its own severity, [error]. *)
Definition errRule : Rule :=
  mkRule "err-rule" "Err Rule" "Reports e" ERROR STRUCTURAL None None
    (λ _ _, Ret (JArr [JObj [("message", JStr "e")]%string])) None.

Definition regWarnOnly : t := registerOrKeep xRule empty.
Definition regWithError : t := registerOrKeep errRule regWarnOnly.

(** A rule that throws a plain object with an own [toString] property
    that is not a function, and a batch with it in the middle. *)
Definition opaqueRule : Rule :=
  mkRule "opaque-rule" "Opaque Rule" "Throws an object" WARNING GOVERNANCE None None
    (λ _ _, Throw (ThrownValue (JObj [("toString", JInt 1)]%string))) None.

Definition regOpaque : t :=
  match registerBatch [xRule; opaqueRule; errRule] empty with
  | Ret reg => reg
  | Throw _ => empty
  end.

End Fixtures.

Module ConfigFixtures.

Import Defaults ConfigParser.

(** A configuration document with the given [extends] and boolean rule
    settings and nothing else. *)
Definition document (exts : option OneOrMany) (settings : list (string * bool))
    : ApiGuardianConfig :=
  mkConfig exts (Some (list_to_map (prod_map Datatypes.id SettingBool <$> settings)))
    None None None None None ∅.

Definition mergeParent : ApiGuardianConfig :=
  document None [("a", true); ("b", false)]%string.
Definition mergeChild : ApiGuardianConfig :=
  document None [("b", true); ("c", true)]%string.

(** The three files of the chain base <- middle <- top. *)
Definition baseConfig : ApiGuardianConfig :=
  document None [("rule1", true); ("rule2", false)]%string.
Definition middleConfig : ApiGuardianConfig :=
  document (Some (Many ["./base-config.yaml"%string]))
    [("rule2", true); ("rule3", true)]%string.
Definition topConfig : ApiGuardianConfig :=
  document (Some (Many ["./middle-config.yaml"%string]))
    [("rule3", false)]%string.

(** The error [loadConfig] raises for a missing file. *)
Definition notFound (filePath : string) : ConfigError :=
  {| ce_message := "Config file not found: " +:+ filePath;
     ce_property := "configPath";
     ce_value := filePath;
     ce_expectedFormat := "valid file path";
     ce_constraint := "file must exist";
     ce_suggestion := Some ("Check that the config file exists at: " +:+ filePath)
  |}%string.

Definition chainDisk (filePath : string) : Exc ConfigError ApiGuardianConfig :=
  if String.eqb filePath "/cfg/base-config.yaml" then Ret baseConfig
  else if String.eqb filePath "/cfg/middle-config.yaml" then Ret middleConfig
  else if String.eqb filePath "/cfg/top-config.yaml" then Ret topConfig
  else Throw (notFound filePath).

Fixpoint join (sep : string) (pieces : list string) : string :=
  match pieces with
  | [] => EmptyString
  | [piece] => piece
  | piece :: rest => piece +:+ sep +:+ join sep rest
  end.

(** [path.resolve(path.dirname(basePath), ext)] for an absolute [basePath]
    and an [ext] of the form [./name]. *)
Definition siblingPath (basePath ext : string) : string :=
  join "/" (removelast (split slash basePath))
  +:+ "/" +:+ String.substring 2 (String.length ext - 2) ext.

(** What the middle file resolves to, and the resolver's cache once the
    chain has been loaded from [top]. *)
Definition resolvedMiddle : ApiGuardianConfig :=
  mergeConfigs (mergeConfigs DEFAULT_CONFIG baseConfig) middleConfig.
Definition chainCache : Cache :=
  <["/cfg/base-config.yaml"%string := baseConfig]>
    (<["/cfg/middle-config.yaml"%string := middleConfig]> ∅).

(** A document that extends an inherited name of the preset table. *)
Definition extendsConstructor : ApiGuardianConfig :=
  document (Some (Many ["api-guardian:constructor"%string])) [].


Definition ruleset_at (k : string) (c : ApiGuardianConfig) : option RulesetEntry :=
  rulesets c ≫= (.!! k).

(** [rec'] agrees with [rec] wherever [rec] comes to an end. *)
Definition refines
    (rec rec' : ApiGuardianConfig → string → Cache → Res ApiGuardianConfig * Cache)
    : Prop :=
  ∀ config basePath cache r cache',
    rec config basePath cache = (r, cache') → r ≠ Diverges →
    rec' config basePath cache = (r, cache').

(** The entries of an [extends] array resolved one after the other, each
    on its own, in array order: the list of their configurations (a skipped
    entry contributes none). *)
Fixpoint resolveAll (disk : string → Exc ConfigError ApiGuardianConfig)
    (resolve : string → string → string)
    (rec : ApiGuardianConfig → string → Cache → Res ApiGuardianConfig * Cache)
    (basePath : string) (exts : list string) (cache : Cache)
    : Res (list ApiGuardianConfig) * Cache :=
  match exts with
  | [] => (Done [], cache)
  | ext :: rest =>
      match resolveEntry disk resolve rec basePath ext cache with
      | (Done entry, cache1) =>
          match resolveAll disk resolve rec basePath rest cache1 with
          | (Done es, cache2) =>
              (Done (match entry with
                     | Extension extConfig => extConfig :: es
                     | Skip => es
                     end), cache2)
          | other => other
          end
      | (Fails e, cache1) => (Fails e, cache1)
      | (Diverges, cache1) => (Diverges, cache1)
      end
  end.

End ConfigFixtures.

(** ** Notions used to state further properties of the registry *)

Module RegistryNotions.

Import RuleRegistry.

(** The ids of the rules of one category, in the order of the list. *)
Definition ids_of (c : RuleCategory) (rs : list Rule) : list string :=
  id <$> filter (λ r, category r = c) rs.

(** The category index agrees with the rule map: ids are unique, the index
    lists for each category the ids of its rules in registration order, and
    the index sizes add up to the number of rules. *)
Definition indexed (reg : t) : Prop :=
  NoDup (getAllIds reg) ∧
  (∀ c, categoryIds c (ruleCategories reg) = ids_of c (rules reg)) ∧
  sum_list (snd <$> rulesByCategory (getStats reg)) = length (rules reg) ∧
  (∀ c, c ∈ getAllCategories reg ↔ categoryIds c (ruleCategories reg) ≠ []).

(** The setting of the last entry for [ruleId] in a batch of overrides. *)
Fixpoint last_setting (ruleId : string) (ruleConfigs : list (string * RuleSetting))
    : option RuleSetting :=
  match ruleConfigs with
  | [] => None
  | (k, s) :: rest =>
      match last_setting ruleId rest with
      | Some s' => Some s'
      | None => if String.eqb k ruleId then Some s else None
      end
  end.

(** The text of the error [register] throws. *)
Definition alreadyRegistered (ruleId : string) : Thrown :=
  ThrownError ("Rule with ID " +:+ dquote +:+ ruleId +:+ dquote +:+ " is already registered").

End RegistryNotions.

(** ** Notions used to state further properties of the engine *)

Module EngineNotions.

Import RuleEngine.

(** A normalized issue written back as a raw result object. *)
Definition issue_as_raw (i : ValidationIssue) : JsVal :=
  JObj [ ("ruleId", i_ruleId i); ("ruleDescription", i_ruleDescription i);
         ("severity", i_severity i); ("path", i_path i); ("line", i_line i);
         ("column", i_column i); ("message", i_message i);
         ("suggestion", i_suggestion i); ("category", i_category i) ]%string.

(** What is always true of a stats record [executeRule] returns. *)
Definition stats_sound (st : RuleExecutionStats) : Prop :=
  (executed st = false → issuesFound st = 0%nat) ∧
  (is_Some (error st) → executed st = false).

(** The elements of what a rule function returned, when that is an
    array. *)
Definition raw_elements (r : Exc Thrown JsVal) : list JsVal :=
  match r with
  | Ret (JArr elems) => elems
  | _ => []
  end.

(** The severity [executeRule] hands to normalization for a registered
    rule: the rule's own when no override is stored for its id, and
    otherwise the override's, else the default severity passed in, else the
    rule's own. *)
Definition severity_in_force (registry : RuleRegistry.t) (rule : Rule)
    (defaultSeverity : option IssueSeverity) : IssueSeverity :=
  match RuleRegistry.overrides registry !! id rule with
  | None => severity rule
  | Some override =>
      default (default (severity rule) defaultSeverity) (rc_severity override)
  end.

(** The run of the rule with this id on the document ends in a result,
    not in an exception. *)
Definition reports (registry : RuleRegistry.t) (spec : JsVal)
    (ds : option IssueSeverity) (ruleId : string) : Prop :=
  ∃ out, executeRule registry ruleId spec ds = Ret out.

(** The [TypeError] of a conversion to a string that fails. *)
Definition cannotConvert : Thrown :=
  ThrownError "Cannot convert object to primitive value".

End EngineNotions.

(** ** Notions used to state further properties of the resolver *)

Module ConfigNotions.

Import Defaults ConfigParser.

(** Every cached configuration is what the disk holds under that path. *)
Definition consistent (disk : string → Exc ConfigError ApiGuardianConfig)
    (cache : Cache) : Prop :=
  ∀ filePath config, cache !! filePath = Some config → disk filePath = Ret config.

(** A run of the resolver does not depend on what the cache holds, as long
    as the cache is consistent with the disk; it leaves a consistent cache
    that still holds everything the cache held. *)
Definition cache_blind {A} (disk : string → Exc ConfigError ApiGuardianConfig)
    (run : Cache → Res A * Cache) : Prop :=
  ∀ cache1 cache2,
    consistent disk cache1 → consistent disk cache2 →
    (run cache1).1 = (run cache2).1 ∧
    consistent disk (run cache1).2 ∧ cache1 ⊆ (run cache1).2.

(** An [extends] entry that names a file. *)
Definition file_reference (ext : string) : bool :=
  includes_char slash ext || includes_char backslash ext.

(** An [extends] entry that names one of the three presets in the
    [api-guardian] or [preset] namespace, or anything in the [spectral]
    namespace. *)
Definition preset_reference (ext : string) : Prop :=
  file_reference ext = false ∧
  let namespace := key_of (split colon ext !! 0%nat) in
  namespace = "spectral"%string ∨
  ((namespace = "api-guardian"%string ∨ namespace = "preset"%string) ∧
   is_Some (preset_table !! key_of (split colon ext !! 1%nat))).

(** The fields the baseline configuration defines are defined, and the
    three presets are among the rulesets. *)
Definition seeded (config : ApiGuardianConfig) : Prop :=
  is_Some (defaultSeverity config) ∧
  is_Some (failOnWarnings config) ∧ is_Some (showInfo config) ∧
  is_Some (files config) ∧
  ∀ preset, is_Some (preset_table !! preset) →
            is_Some (rulesets config ≫= (.!! preset)).

(** A configuration as the merge leaves it: no [extends], a [rules]
    object, and everything the baseline defines. *)
Definition complete (config : ApiGuardianConfig) : Prop :=
  extends config = None ∧ is_Some (rules config) ∧ seeded config.

(** A file that extends itself, alone on its disk. *)
Definition selfConfig : ApiGuardianConfig :=
  ConfigFixtures.document (Some (Many ["./self.yaml"%string])) [].
Definition selfDisk (filePath : string) : Exc ConfigError ApiGuardianConfig :=
  if String.eqb filePath "/cfg/self.yaml" then Ret selfConfig
  else Throw (ConfigFixtures.notFound filePath).

(** A document whose second extension is in an unknown namespace. *)
Definition brokenConfig : ApiGuardianConfig :=
  ConfigFixtures.document
    (Some (Many ["api-guardian:strict"; "unknown:zzz"; "./base-config.yaml"]%string))
    [("rule1", false)]%string.

(** A document that extends presets only. *)
Definition presetsConfig : ApiGuardianConfig :=
  ConfigFixtures.document
    (Some (Many ["api-guardian:lenient"; "spectral:oas"; "preset:strict"]%string))
    [("rule1", false)]%string.

End ConfigNotions.

(** ** Notions used to state further properties of loading and of the
    command-line overrides *)

Module LoadingNotions.

Import Defaults ConfigParser.

(** The properties [validateConfig] inspects, in the order of its checks. *)
Definition checked : list string :=
  [ "extends"; "rules"; "rulesets"; "files"; "failOnWarnings"; "showInfo" ]%string.

(** What each of them may hold. *)
Definition acceptable (property : string) (v : JsVal) : bool :=
  is_undefined v ||
  (if String.eqb property "extends" then is_string v || string_array v
   else if String.eqb property "rules" || String.eqb property "rulesets"
        then typeof_object v
   else if String.eqb property "files" then isArray v
   else match v with JBool _ => true | _ => false end).

Definition first_offending (config : JsVal) : option string :=
  List.find (λ property, negb (acceptable property (get_own property config))) checked.

(** A value whose properties can be read. *)
Definition readable (config : JsVal) : bool :=
  match config with
  | JNull | JUndefined => false
  | _ => true
  end.

(** The [value] detail of the error: the value itself for [extends], its
    [typeof] for the others. *)
Definition reported (property : string) (v : JsVal) : JsVal :=
  if String.eqb property "extends" then v else JStr (typeof v).

(** Every cached value passes [validateConfig]. *)
Definition all_valid (cache : gmap string JsVal) : Prop :=
  ∀ filePath config, cache !! filePath = Some config → validateConfig config = Ret true.

(** The properties the command-line overrides can add to a configuration. *)
Definition cli_keys : list string := [ "outputFormat"; "verbose"; "watch"; "fix" ]%string.

(** The overrides [applyOverrides] reads. *)
Definition effective (o : CliOverrides) : CliOverrides :=
  mkCli None (cli_ruleset o) None (cli_ignorePaths o) (cli_format o) None
    (cli_fix o) (cli_watch o) (cli_verbose o).

(** A small file system: two YAML files and two JSON files. *)
Definition sampleExists (filePath : string) : bool :=
  negb (String.eqb filePath "missing.yaml").

Definition sampleRead (filePath : string) : Exc string string :=
  if String.eqb filePath "locked.yaml"
  then Throw "EACCES: permission denied"
  else if String.eqb filePath "empty.yaml" then Ret "~"
  else if String.eqb filePath "empty.json" then Ret "null"
  else if String.eqb filePath "rules.yaml" then Ret "rules: 3"
  else Ret "failOnWarnings: true"%string.

Definition sampleExtension (filePath : string) : string :=
  if String.eqb filePath "empty.json" then ".json" else ".yaml".

Definition sampleYaml (content : string) : Exc string JsVal :=
  if String.eqb content "~" then Ret JNull
  else if String.eqb content "rules: 3" then Ret (JObj [("rules", JInt 3)])
  else if String.eqb content "failOnWarnings: true"
       then Ret (JObj [("failOnWarnings", JBool true)])
  else Throw "bad indentation of a mapping entry"%string.

Definition sampleJson (content : string) : Exc string JsVal :=
  if String.eqb content "null" then Ret JNull
  else Throw "Unexpected token"%string.

(** The steps of [applyOverrides], one per [if] of the source: the
    ruleset, the ignore paths, and the output format with the three
    flags. *)
Definition put (k : string) (v : JsVal) (r : ResolvedConfig) : ResolvedConfig :=
  mkResolved (with_custom k v (resolved r))
    (configPath r) (resolvedRules r) (activeRuleset r).

Definition rulesetStep (o : CliOverrides) (r : ResolvedConfig) : ResolvedConfig :=
  match given_string (cli_ruleset o) with
  | Some name =>
      match getPresetRuleset name with
      | Some ruleset =>
          mkResolved
            (with_rulesets
               (Some (assign name ruleset (default ∅ (rulesets (resolved r)))))
               (resolved r))
            (configPath r) (resolvedRules r) (Some name)
      | None => r
      end
  | None => r
  end.

Definition appended (ignorePaths : list string) (file : FileConfig) : FileConfig :=
  mkFile (pattern file) (Some (default [] (ignore file) ++ ignorePaths)) (file_rules file).

Definition ignoreStep (o : CliOverrides) (r : ResolvedConfig) : ResolvedConfig :=
  match cli_ignorePaths o, files (resolved r) with
  | Some ignorePaths, Some fs =>
      mkResolved (with_files (Some (appended ignorePaths <$> fs)) (resolved r))
        (configPath r) (resolvedRules r) (activeRuleset r)
  | _, _ => r
  end.

Definition settings (o : CliOverrides) : list (string * JsVal) :=
  match given_string (cli_format o) with
  | Some format => [("outputFormat", JStr format)]
  | None => []
  end
  ++ (if flag (cli_verbose o) then [("verbose", JBool true)] else [])
  ++ (if flag (cli_watch o) then [("watch", JBool true)] else [])
  ++ (if flag (cli_fix o) then [("fix", JBool true)] else [])%string.

Definition sampleResolved : ResolvedConfig :=
  mkResolved DEFAULT_CONFIG (Some "/project/.api-guardian.yaml"%string) None None.

End LoadingNotions.

(** ** Notions used to state further properties of the orchestrator *)

Module ValidatorNotions.

Import Validator.

(** The rules the constructor hands to the registry, in order. *)
Definition requested (body : string → RuleFunction)
    (validatorConfig : option ValidatorConfig) : list Rule :=
  (if bool_decide (validatorConfig ≫= useBuiltInRules = Some false)
   then [] else BuiltIn.BUILTIN_RULES body)
  ++ default [] (validatorConfig ≫= customRules).

(** Rule bodies that report nothing, except that the body of
    [paths-required] throws. *)
Definition silent : string → RuleFunction :=
  λ ruleId _ _,
    if String.eqb ruleId "paths-required"
    then Throw (ThrownError "Cannot read properties of undefined")
    else Ret (JArr []).

Definition customOff : Rule :=
  mkRule "team-rule" "Team rule" "A rule of the team" WARNING GOVERNANCE
    (Some false) None (λ _ _, Ret (JArr [])) None.

End ValidatorNotions.

(** * Properties *)

(** ** Registry *)

Module RegistryFacts.

Import RuleRegistry Fixtures.

Lemma get_app_fresh (rs : list Rule) (rule : Rule) :
  List.find (λ r, String.eqb (id r) (id rule)) rs = None →
  List.find (λ r, String.eqb (id r) (id rule)) (rs ++ [rule]) = Some rule.
Proof.
  induction rs as [|r rs IH]; simpl.
  - intros _. by rewrite String.eqb_refl.
  - destruct (String.eqb (id r) (id rule)); [done | apply IH].
Qed.

(** Registration makes the rule retrievable under its id, and a second
    registration of the same id throws. *)
Lemma register_get (rule : Rule) (reg : t) :
  get reg (id rule) = None →
  ∃ reg', register rule reg = Ret reg' ∧ get reg' (id rule) = Some rule
          ∧ overrides reg' = overrides reg
          ∧ ∃ t, register rule reg' = Throw t.
Proof.
  intros Hnone. unfold register, has. rewrite Hnone.
  rewrite bool_decide_eq_false_2 by (intros [? ?]; done).
  eexists; split; [reflexivity|]. unfold get in *; simpl.
  rewrite (get_app_fresh _ _ Hnone). split; [done|]. split; [done|].
  rewrite bool_decide_eq_true_2 by eauto. eauto.
Qed.

Lemma applyOverrides_one (reg : t) (ruleId : string) (s : RuleSetting) :
  applyOverrides [(ruleId, s)] reg = setOverride reg (ruleId, s).
Proof. reflexivity. Qed.

Lemma setOverride_lookup (reg : t) (ruleId : string) (s : RuleSetting) :
  overrides (setOverride reg (ruleId, s)) !! ruleId = Some (as_config s).
Proof. unfold setOverride; simpl. destruct s; apply lookup_insert_eq. Qed.

Lemma setOverride_get (reg : t) (entry : string * RuleSetting) (ruleId : string) :
  get (setOverride reg entry) ruleId = get reg ruleId.
Proof. reflexivity. Qed.

(** *** C2 *)

(** C2 fails as stated: with no override stored for R, whose own severity is
    [error], [getEffectiveRule("R", info)] returns R unchanged, severity
    [error], where the claimed precedence gives [info]. *)
Lemma getEffectiveRule_default_ignored_without_override :
  get regR "R" = Some (quiet "R" ERROR) ∧
  overrides regR !! "R"%string = None ∧
  severity <$> getEffectiveRule regR "R" (Some INFO) = Some ERROR ∧
  claimed_severity (overrides regR !! "R"%string) (Some INFO) (quiet "R" ERROR) = INFO ∧
  severity <$> getEffectiveRule regR "R" (Some INFO)
  ≠ Some (claimed_severity (overrides regR !! "R"%string) (Some INFO) (quiet "R" ERROR)).
Proof. repeat split. discriminate. Qed.

(** C2, amended: [getEffectiveRule] returns null for an unknown id; when no
    override is stored for the id it returns the registered rule itself,
    whatever [defaultSeverity] is; when an override is stored it returns the
    rule with [enabled = override.enabled ?? rule.enabled],
    [severity = override.severity ?? defaultSeverity ?? rule.severity] and
    [options] the base options shallow-merged with the override's (override
    keys win, the other base keys are kept), all other fields unchanged. *)
Theorem getEffectiveRule_spec (reg : t) (ruleId : string)
    (defaultSeverity : option IssueSeverity) :
  (get reg ruleId = None → getEffectiveRule reg ruleId defaultSeverity = None) ∧
  (∀ rule, get reg ruleId = Some rule → overrides reg !! ruleId = None →
     getEffectiveRule reg ruleId defaultSeverity = Some rule) ∧
  (∀ rule override,
     get reg ruleId = Some rule → overrides reg !! ruleId = Some override →
     ∃ eff merged,
       getEffectiveRule reg ruleId defaultSeverity = Some eff ∧
       enabled eff = nullish (rc_enabled override) (enabled rule) ∧
       severity eff = claimed_severity (Some override) defaultSeverity rule ∧
       options eff = Some merged ∧
       (∀ k v, rc_options override ≫= (.!! k) = Some v → merged !! k = Some v) ∧
       (∀ k, rc_options override ≫= (.!! k) = None →
             merged !! k = options rule ≫= (.!! k)) ∧
       id eff = id rule ∧ name eff = name rule ∧
       description eff = description rule ∧ category eff = category rule ∧
       fixable eff = fixable rule ∧ fn eff = fn rule).
Proof.
  unfold getEffectiveRule. split; [|split].
  - by intros ->.
  - by intros rule -> ->.
  - intros rule override -> ->. eexists _, _. split; [reflexivity|]. simpl.
    repeat split.
    + intros k v Hk. unfold spread2.
      destruct (rc_options override) as [o|]; simpl in *; [|done].
      by apply lookup_union_Some_l.
    + intros k Hk. unfold spread2.
      destruct (rc_options override) as [o|]; simpl in *.
      * rewrite lookup_union_r by done. by destruct (options rule).
      * rewrite (left_id_L ∅ (∪)). by destruct (options rule).
Qed.

(** The amended statement at work: an override that only disables R lets a
    supplied default severity through; without the override it does not. *)
Lemma getEffectiveRule_spec_witness :
  severity <$> getEffectiveRule (applyOverrides [("R"%string, SettingBool false)] regR)
                 "R" (Some INFO) = Some INFO ∧
  getEffectiveRule regR "R" (Some INFO) = Some (quiet "R" ERROR) ∧
  getEffectiveRule regR "S" (Some INFO) = None.
Proof.
  split; [|split].
  - destruct (getEffectiveRule_spec
                (applyOverrides [("R"%string, SettingBool false)] regR)
                "R" (Some INFO)) as (_ & _ & H).
    destruct (H (quiet "R" ERROR) (mkRuleConfig None (Some false) None)
                eq_refl eq_refl) as (eff & merged & Heff & _ & Hsev & _).
    rewrite Heff; simpl. rewrite Hsev. reflexivity.
  - apply (getEffectiveRule_spec regR "R" (Some INFO)); reflexivity.
  - apply (getEffectiveRule_spec regR "S" (Some INFO)); reflexivity.
Defined.

(** *** C3 *)

(** C3: for a registered rule R with base severity [error], a stored
    override [{severity: warning}] makes [getEffectiveRule(R.id)] report
    [warning]; with no override stored, [getEffectiveRule(R.id, info)] still
    reports [error]. *)
Theorem getEffectiveRule_override_then_own (reg : t) (R : Rule) :
  get reg (id R) = Some R →
  severity R = ERROR →
  (overrides reg !! id R = Some (severityOnly WARNING) →
     severity <$> getEffectiveRule reg (id R) None = Some WARNING) ∧
  (overrides reg !! id R = None →
     severity <$> getEffectiveRule reg (id R) (Some INFO) = Some ERROR).
Proof.
  intros Hget Hsev. unfold getEffectiveRule. rewrite Hget. split.
  - by intros ->.
  - intros ->. simpl. by rewrite Hsev.
Qed.

Lemma getEffectiveRule_override_then_own_witness :
  severity <$> getEffectiveRule
                 (applyOverrides [("R"%string, SettingConfig (severityOnly WARNING))] regR)
                 "R" None = Some WARNING ∧
  severity <$> getEffectiveRule regR "R" (Some INFO) = Some ERROR.
Proof.
  split.
  - apply (getEffectiveRule_override_then_own
             (applyOverrides [("R"%string, SettingConfig (severityOnly WARNING))] regR)
             (quiet "R" ERROR)); reflexivity.
  - apply (getEffectiveRule_override_then_own regR (quiet "R" ERROR)); reflexivity.
Defined.

(** *** C7 *)

(** C7 fails as stated: after [{severity: warning}] and then
    [{enabled: false}] for the same id, the stored override is the second
    one alone; its severity is absent, not [warning], and the effective
    severity is back to the rule's own. *)
Lemma applyOverrides_second_discards_first :
  let reg2 :=
    applyOverrides [("R"%string, SettingConfig (enabledOnly false))]
      (applyOverrides [("R"%string, SettingConfig (severityOnly WARNING))] regR) in
  overrides reg2 !! "R"%string
  ≠ Some (merged_override (severityOnly WARNING) (enabledOnly false)) ∧
  rc_severity <$> overrides reg2 !! "R"%string = Some None ∧
  rc_severity (merged_override (severityOnly WARNING) (enabledOnly false)) = Some WARNING ∧
  severity <$> getEffectiveRule reg2 "R" None = Some ERROR.
Proof.
  repeat split. intros Heq.
  apply (f_equal (fmap rc_severity)) in Heq. discriminate Heq.
Qed.

(** C7, amended: for every rule id and every two overrides applied for it
    through successive [applyOverrides] calls, the second replaces the
    first wholesale: the stored override is the second one, the registry is
    the one obtained by applying the second alone, and the effective rule
    is computed from the base rule and the second override only. *)
Theorem applyOverrides_last_write_wins (reg : t) (ruleId : string)
    (s1 s2 : RuleSetting) :
  let reg2 := applyOverrides [(ruleId, s2)] (applyOverrides [(ruleId, s1)] reg) in
  overrides reg2 !! ruleId = Some (as_config s2) ∧
  reg2 = applyOverrides [(ruleId, s2)] reg ∧
  ∀ defaultSeverity,
    getEffectiveRule reg2 ruleId defaultSeverity =
    getEffectiveRule (applyOverrides [(ruleId, s2)] reg) ruleId defaultSeverity.
Proof.
  assert (Heq : applyOverrides [(ruleId, s2)] (applyOverrides [(ruleId, s1)] reg)
                = applyOverrides [(ruleId, s2)] reg).
  { rewrite !applyOverrides_one. unfold setOverride; simpl.
    by rewrite insert_insert_eq. }
  cbv zeta. split; [|split].
  - rewrite (applyOverrides_one _ ruleId s2). apply setOverride_lookup.
  - exact Heq.
  - intros ds. by rewrite Heq.
Qed.

End RegistryFacts.

(** ** Engine *)

Module EngineFacts.

Import RuleRegistry RuleEngine Fixtures EngineNotions.

Lemma string_app_assoc (a b c : string) : (a +:+ b) +:+ c = a +:+ (b +:+ c).
Proof.
  induction a as [|x a IH]; [done|].
  change (String x ((a +:+ b) +:+ c) = String x (a +:+ (b +:+ c))).
  by rewrite IH.
Qed.

Lemma string_app_nil_r (a : string) : a +:+ EmptyString = a.
Proof.
  induction a as [|x a IH]; [done|].
  change (String x (a +:+ EmptyString) = String x a).
  by rewrite IH.
Qed.

Lemma contains_not_found (ruleId : string) :
  contains "not found" ("Rule " +:+ dquote +:+ ruleId +:+ dquote +:+ " not found").
Proof.
  exists ("Rule " +:+ dquote +:+ ruleId +:+ dquote +:+ " ")%string, EmptyString.
  rewrite string_app_nil_r, !string_app_assoc. reflexivity.
Qed.

(** [executeRule] returns unless the rule function throws a value that is
    not an [Error] and that [String] cannot convert. *)
Lemma executeRule_returns (registry : RuleRegistry.t) (ruleId : string)
    (spec : JsVal) (ds : option IssueSeverity) :
  (∀ eff v,
     getEffectiveRule registry ruleId ds = Some eff →
     fn eff spec (options eff) = Throw (ThrownValue v) → is_Some (js_String v)) →
  reports registry spec ds ruleId.
Proof.
  intros Hconv. unfold reports, executeRule.
  destruct (get registry ruleId) as [rule|]; [|by eexists].
  destruct (isEnabled registry ruleId); simpl; [|by eexists].
  destruct (getEffectiveRule registry ruleId ds) as [eff|]; [|by eexists].
  destruct (fn eff spec (options eff)) as [raw|[m|v]] eqn:Hfn; simpl; [by eexists..|].
  destruct (Hconv eff v eq_refl Hfn) as [text ->]. by eexists.
Qed.

Lemma executeLoop_outcomes (registry : RuleRegistry.t) (spec : JsVal)
    (ds : option IssueSeverity) (ruleIds : list string) :
  Forall (reports registry spec ds) ruleIds →
  ∀ allIssues executionStats,
  ∃ outs,
    Forall2 (λ rid out, executeRule registry rid spec ds = Ret out) ruleIds outs ∧
    executeLoop registry spec ds ruleIds allIssues executionStats
    = Ret (allIssues ++ concat outs.*1, executionStats ++ outs.*2).
Proof.
  induction 1 as [|rid rest [out Hout] _ IH]; intros allIssues executionStats.
  - exists []. split; [constructor|]. simpl. by rewrite !app_nil_r.
  - destruct (IH (allIssues ++ out.1) (executionStats ++ [out.2])) as (outs & HF & Hloop).
    exists (out :: outs). split; [by constructor|].
    simpl. rewrite Hout. simpl. rewrite Hloop. by rewrite <- !app_assoc.
Qed.

(** What a loop that returns has done. *)
Lemma executeLoop_returned (registry : RuleRegistry.t) (spec : JsVal)
    (ds : option IssueSeverity) (ruleIds : list string) :
  ∀ allIssues executionStats r,
    executeLoop registry spec ds ruleIds allIssues executionStats = Ret r →
    ∃ outs,
      Forall2 (λ rid out, executeRule registry rid spec ds = Ret out) ruleIds outs ∧
      r = (allIssues ++ concat outs.*1, executionStats ++ outs.*2).
Proof.
  induction ruleIds as [|rid rest IH]; intros allIssues executionStats r; simpl.
  - intros [= <-]. exists []. split; [constructor|]. simpl. by rewrite !app_nil_r.
  - destruct (executeRule registry rid spec ds) as [out|e] eqn:Hout; simpl; [|done].
    intros Hrest. apply IH in Hrest as (outs & HF & ->).
    exists (out :: outs). split; [by constructor|]. simpl. by rewrite <- !app_assoc.
Qed.

(** The loop stops at the first id whose run throws. *)
Lemma executeLoop_aborts (registry : RuleRegistry.t) (spec : JsVal)
    (ds : option IssueSeverity) (before : list string) (ruleId : string)
    (after : list string) (thrown : Thrown) :
  Forall (reports registry spec ds) before →
  executeRule registry ruleId spec ds = Throw thrown →
  ∀ allIssues executionStats,
    executeLoop registry spec ds (before ++ ruleId :: after) allIssues executionStats
    = Throw thrown.
Proof.
  intros Hbefore Hthrow.
  induction Hbefore as [|rid rest [out Hout] _ IH]; intros allIssues executionStats; simpl.
  - by rewrite Hthrow.
  - rewrite Hout. simpl. apply IH.
Qed.

(** The parts of the contract of [executeRule] that hold: an unregistered
    id gives no issues and an error message containing "not found"; a
    disabled rule gives no issues, [executed = false] and no error; a rule
    function that throws an [Error], or a value that [String] converts,
    gives no issues, [executed = false] and the message as error; and as
    long as every run ends in a result, [executeAll] executes every id of
    the batch in turn and each contributes its own issues and stats. *)
Lemma executeRule_outcomes (registry : RuleRegistry.t) (ruleId : string)
    (spec : JsVal) (ds : option IssueSeverity) :
  (get registry ruleId = None →
     let msg := "Rule " +:+ dquote +:+ ruleId +:+ dquote +:+ " not found" in
     executeRule registry ruleId spec ds = Ret ([], mkStats ruleId false 0 (Some msg)) ∧
     contains "not found" msg) ∧
  (is_Some (get registry ruleId) → isEnabled registry ruleId = false →
     executeRule registry ruleId spec ds = Ret ([], mkStats ruleId false 0 None)) ∧
  (∀ eff thrown message,
     isEnabled registry ruleId = true →
     getEffectiveRule registry ruleId ds = Some eff →
     fn eff spec (options eff) = Throw thrown →
     thrown_message thrown = Ret message →
     executeRule registry ruleId spec ds
     = Ret ([], mkStats ruleId false 0 (Some message))) ∧
  (∀ ruleIds,
     Forall (reports registry spec ds) ruleIds →
     ∃ outs,
       Forall2 (λ rid out, executeRule registry rid spec ds = Ret out) ruleIds outs ∧
       executeAll registry spec (Some ruleIds) ds = Ret (concat outs.*1, outs.*2)) ∧
  executeAll registry spec None ds
  = executeAll registry spec (Some (getAllIds registry)) ds.
Proof.
  split; [|split; [|split; [|split]]].
  - intros Hnone. unfold executeRule. rewrite Hnone. simpl.
    split; [reflexivity | apply contains_not_found].
  - intros [rule Hrule] Hoff. unfold executeRule. by rewrite Hrule, Hoff.
  - intros eff thrown message Hon Heff Hthrow Hmessage. unfold executeRule.
    destruct (get registry ruleId) as [rule|] eqn:Hget.
    + rewrite Hon, Heff, Hthrow. simpl. by rewrite Hmessage.
    + unfold getEffectiveRule in Heff. by rewrite Hget in Heff.
  - intros ruleIds Hall.
    destruct (executeLoop_outcomes registry spec ds ruleIds Hall [] [])
      as (outs & HF & Hloop).
    exists outs. split; [done|]. unfold executeAll. simpl. by rewrite Hloop.
  - reflexivity.
Qed.

(** The batch [boom-rule; x-rule; off-rule; missing]: the first throws the
    error "boom", the second still runs and contributes its issue. *)
Example executeAll_continues_after_error :
  executeRule regBatch "boom-rule" JNull None
  = Ret ([], mkStats "boom-rule" false 0 (Some "boom"%string)) ∧
  ∃ issue stats,
    executeAll regBatch JNull
      (Some ["boom-rule"; "x-rule"; "off-rule"; "missing"]%string) None
    = Ret ([issue], stats) ∧
    i_ruleId issue = JStr "x-rule" ∧ i_message issue = JStr "x" ∧
    executed <$> stats = [false; true; false; false].
Proof. split; [reflexivity|]. eexists _, _. repeat split. Qed.

(** *** C1 *)

(** C1: [executeRule] can throw, and a failing rule can abort a batch.
    When the function of an enabled rule throws a value that is not an
    [Error] and that [String] cannot convert, such as a plain object with
    an own [toString] property that is not a function, the conversion in
    the [catch] block raises a [TypeError] that leaves [executeRule]; in
    [executeAll] the loop ends there with that [TypeError], so the ids
    after it are never executed and the issues and stats of the ids before
    it are lost. *)
Theorem executeRule_conversion_escapes (registry : RuleRegistry.t)
    (ruleId : string) (eff : Rule) (spec : JsVal) (ds : option IssueSeverity)
    (v : JsVal) :
  isEnabled registry ruleId = true →
  getEffectiveRule registry ruleId ds = Some eff →
  fn eff spec (options eff) = Throw (ThrownValue v) →
  js_String v = None →
  executeRule registry ruleId spec ds = Throw cannotConvert ∧
  ∀ before after,
    Forall (reports registry spec ds) before →
    executeAll registry spec (Some (before ++ ruleId :: after)) ds = Throw cannotConvert.
Proof.
  intros Hon Heff Hthrow Hnone.
  assert (Hrun : executeRule registry ruleId spec ds = Throw cannotConvert).
  { unfold executeRule.
    destruct (get registry ruleId) as [rule|] eqn:Hget.
    - rewrite Hon, Heff, Hthrow. simpl. by rewrite Hnone.
    - unfold getEffectiveRule in Heff. by rewrite Hget in Heff. }
  split; [exact Hrun|].
  intros before after Hbefore. unfold executeAll. simpl.
  by apply executeLoop_aborts.
Qed.

(** The batch [x-rule; opaque-rule; err-rule]: the second rule throws
    [{toString: 1}]; the batch ends with the [TypeError], although the
    first rule has reported its issue and the third would report one. *)
Lemma executeRule_conversion_escapes_witness :
  executeRule regOpaque "opaque-rule" JNull None = Throw cannotConvert ∧
  executeAll regOpaque JNull (Some ["x-rule"; "opaque-rule"; "err-rule"]%string) None
  = Throw cannotConvert ∧
  (∃ issue stats, executeRule regOpaque "x-rule" JNull None = Ret ([issue], stats)) ∧
  (∃ issue stats, executeRule regOpaque "err-rule" JNull None = Ret ([issue], stats)).
Proof.
  destruct (executeRule_conversion_escapes regOpaque "opaque-rule" opaqueRule JNull None
              (JObj [("toString", JInt 1)]%string) eq_refl eq_refl eq_refl eq_refl)
    as [Hrun Hbatch].
  split; [exact Hrun|]. split.
  - apply (Hbatch ["x-rule"%string] ["err-rule"%string]).
    apply Forall_cons; split; [by eexists | apply Forall_nil_2].
  - split; by eexists _, _.
Defined.

(** *** Normalization *)

Lemma has_message (props : list (string * JsVal)) :
  has_property "message" (JObj props) = bool_decide (is_Some (assoc "message" props)).
Proof. unfold has_property. by rewrite orb_false_r. Qed.

Lemma normalizeOne_object (ruleId ruleName : string) (sev : IssueSeverity)
    (props : list (string * JsVal)) :
  is_Some (assoc "message" props) →
  normalizeOne ruleId ruleName sev (JObj props)
  = Some (mkIssue
      (js_or (get_own "ruleId" (JObj props)) (JStr ruleId))
      (js_or (get_own "ruleDescription" (JObj props)) (JStr ruleName))
      (js_or (get_own "severity" (JObj props)) (JStr (severity_value sev)))
      (js_or (get_own "path" (JObj props)) (JStr "root"))
      (js_or (get_own "line" (JObj props)) JUndefined)
      (js_or (get_own "column" (JObj props)) JUndefined)
      (js_or (get_own "message" (JObj props)) (JStr EmptyString))
      (js_or (get_own "suggestion" (JObj props)) JUndefined)
      (js_or (get_own "category" (JObj props)) JUndefined)).
Proof.
  intros Hmsg. unfold normalizeOne.
  rewrite has_message, bool_decide_eq_true_2 by done. reflexivity.
Qed.

Lemma normalizeOne_dropped (ruleId ruleName : string) (sev : IssueSeverity)
    (e : JsVal) :
  (¬ ∃ props, e = JObj props ∧ is_Some (assoc "message" props)) →
  normalizeOne ruleId ruleName sev e = None.
Proof.
  intros Hno. unfold normalizeOne.
  destruct e as [| |b|n| |s|elems|props];
    try reflexivity; try (by destruct (truthy _)).
  rewrite has_message, bool_decide_eq_false_2; [done|].
  intros Hsome. apply Hno. eauto.
Qed.

Lemma js_or_field_from (props : list (string * JsVal)) (k : string) (dflt : JsVal) :
  field_from props k dflt (js_or (get_own k (JObj props)) dflt).
Proof.
  unfold field_from, js_or, get_own. repeat split.
  - intros v Hk Ht. rewrite Hk. simpl. by rewrite Ht.
  - intros v Hk Ht. rewrite Hk. simpl. by rewrite Ht.
  - intros ->. simpl. reflexivity.
Qed.

(** *** C6 *)

(** C6 fails as stated: a raw element that supplies [ruleId: ''] (an empty
    string) does not override the default; the issue carries the executing
    rule's id. *)
Lemma normalize_supplied_empty_ruleId_not_kept :
  let raw := JObj [("message", JStr "m"); ("ruleId", JStr EmptyString)]%string in
  has_property "ruleId" raw = true ∧
  get_own "ruleId" raw = JStr EmptyString ∧
  i_ruleId <$> normalizeResults (JArr [raw]) "r1" "Rule 1" ERROR = [JStr "r1"] ∧
  i_ruleId <$> normalizeResults (JArr [raw]) "r1" "Rule 1" ERROR
  ≠ [get_own "ruleId" raw].
Proof. repeat split. discriminate. Qed.

(** C6, amended: a non-array raw value yields no issues; an array element
    that is not an object with a [message] property is dropped; every other
    element yields, in order, one issue whose [ruleId], [ruleDescription],
    [severity] and [path] are the element's own values when these are
    supplied and truthy, and otherwise (property missing, or supplied with a
    falsy value such as the empty string) the executing rule's id, the
    rule's name, the effective rule's severity and "root"; [line],
    [column], [suggestion] and [category] are the element's truthy values
    or else absent.  [executeRule] normalizes the rule function's return
    value with exactly these defaults. *)
Theorem normalizeResults_contract (ruleId ruleName : string) (sev : IssueSeverity) :
  (∀ results, isArray results = false →
     normalizeResults results ruleId ruleName sev = []) ∧
  (∀ elems, normalizeResults (JArr elems) ruleId ruleName sev
            = omap (normalizeOne ruleId ruleName sev) elems) ∧
  (∀ e, (¬ ∃ props, e = JObj props ∧ is_Some (assoc "message" props)) →
        normalizeOne ruleId ruleName sev e = None) ∧
  (∀ props, is_Some (assoc "message" props) →
     ∃ issue,
       normalizeOne ruleId ruleName sev (JObj props) = Some issue ∧
       field_from props "ruleId" (JStr ruleId) (i_ruleId issue) ∧
       field_from props "ruleDescription" (JStr ruleName) (i_ruleDescription issue) ∧
       field_from props "severity" (JStr (severity_value sev)) (i_severity issue) ∧
       field_from props "path" (JStr "root") (i_path issue) ∧
       field_from props "line" JUndefined (i_line issue) ∧
       field_from props "column" JUndefined (i_column issue) ∧
       field_from props "suggestion" JUndefined (i_suggestion issue) ∧
       field_from props "category" JUndefined (i_category issue)) ∧
  (∀ registry spec ds rule eff raw,
     ruleName = name rule → sev = severity eff →
     get registry ruleId = Some rule →
     isEnabled registry ruleId = true →
     getEffectiveRule registry ruleId ds = Some eff →
     fn eff spec (options eff) = Ret raw →
     executeRule registry ruleId spec ds
     = Ret (normalizeResults raw ruleId ruleName sev,
            mkStats ruleId true (length (normalizeResults raw ruleId ruleName sev)) None)).
Proof.
  split; [|split; [|split; [|split]]].
  - by intros [].
  - reflexivity.
  - apply normalizeOne_dropped.
  - intros props Hmsg. eexists. split; [by apply normalizeOne_object|].
    simpl. repeat split; apply js_or_field_from.
  - intros registry spec ds rule eff raw -> -> Hget Hon Heff Hraw.
    unfold executeRule. by rewrite Hget, Hon, Heff, Hraw.
Qed.

Lemma normalizeResults_contract_witness :
  normalizeResults (JStr "oops") "x-rule" "X Rule" WARNING = [] ∧
  normalizeResults
    (JArr [JNull; JInt 3; JObj [("path", JStr "$.info")]%string; JArr [];
           JObj [("message", JStr "x")]%string;
           JObj [("message", JStr "y"); ("severity", JStr "error");
                 ("ruleId", JStr "other"); ("line", JInt 0)]%string])
    "x-rule" "X Rule" WARNING
  = [ mkIssue (JStr "x-rule") (JStr "X Rule") (JStr "warning") (JStr "root")
        JUndefined JUndefined (JStr "x") JUndefined JUndefined;
      mkIssue (JStr "other") (JStr "X Rule") (JStr "error") (JStr "root")
        JUndefined JUndefined (JStr "y") JUndefined JUndefined ] ∧
  executeRule regBatch "x-rule" JNull (Some INFO)
  = Ret ([ mkIssue (JStr "x-rule") (JStr "X Rule") (JStr "warning") (JStr "root")
             JUndefined JUndefined (JStr "x") JUndefined JUndefined ],
         mkStats "x-rule" true 1 None).
Proof.
  destruct (normalizeResults_contract "x-rule" "X Rule" WARNING)
    as (Hnon & Harr & Hdrop & Hkeep & Hrun).
  split; [|split].
  - apply Hnon. reflexivity.
  - rewrite Harr. reflexivity.
  - rewrite (Hrun regBatch JNull (Some INFO) xRule xRule
               (JArr [JObj [("message", JStr "x")]%string]));
      reflexivity.
Defined.

(** *** C10 *)

(** C10 fails as stated: a [message] that is not a string but truthy, such
    as the number 42, is carried through as it is, not replaced by the
    empty string. *)
Lemma normalize_truthy_non_string_message_kept :
  i_message <$> normalizeResults (JArr [JObj [("message", JInt 42)]%string])
                  "r1" "Rule 1" ERROR = [JInt 42] ∧
  i_message <$> normalizeResults (JArr [JObj [("message", JInt 42)]%string])
                  "r1" "Rule 1" ERROR ≠ [JStr EmptyString].
Proof. split; [reflexivity | discriminate]. Qed.

(** C10, amended: whether a raw element is dropped depends on the presence
    of the [message] property, not on its value.  Every raw object with a
    [message] key is kept; when the value is falsy (null, undefined, false,
    0, NaN or the empty string) the issue's message is the empty string,
    and any truthy value is carried through unchanged. *)
Theorem normalize_message_presence (ruleId ruleName : string)
    (sev : IssueSeverity) (props : list (string * JsVal)) (v : JsVal) :
  assoc "message" props = Some v →
  ∃ issue,
    normalizeOne ruleId ruleName sev (JObj props) = Some issue ∧
    (truthy v = false → i_message issue = JStr EmptyString) ∧
    (truthy v = true → i_message issue = v).
Proof.
  intros Hmsg. eexists. split; [apply normalizeOne_object; by rewrite Hmsg|].
  simpl. unfold js_or. rewrite Hmsg. simpl. split; by intros ->.
Qed.

Lemma normalize_message_presence_witness :
  ∃ issue,
    normalizeOne "r1" "Rule 1" ERROR (JObj [("message", JNull)]%string) = Some issue ∧
    i_message issue = JStr EmptyString.
Proof.
  destruct (normalize_message_presence "r1" "Rule 1" ERROR
              [("message", JNull)]%string JNull eq_refl) as (issue & Hrun & Hfalsy & _).
  exists issue. split; [exact Hrun | apply Hfalsy; reflexivity].
Defined.

End EngineFacts.

(** ** Configuration resolver *)

Module ConfigFacts.

Import Defaults ConfigParser ConfigFixtures.

Lemma spread2_lookup {V} (a b : option (gmap string V)) (k : string) :
  spread2 a b !! k = nullish (b ≫= (.!! k)) (a ≫= (.!! k)).
Proof.
  unfold spread2. destruct b as [b|]; simpl.
  - destruct (b !! k) as [v|] eqn:Hb.
    + by apply lookup_union_Some_l.
    + rewrite lookup_union_r by done. by destruct a.
  - rewrite (left_id_L ∅ (∪)). by destruct a.
Qed.







(** *** C5 *)

(** C5: [mergeConfigs(parent, child)] takes each of [defaultSeverity],
    [failOnWarnings], [showInfo] from the child when the child defines it
    and from the parent otherwise; takes the child's [files] array whole
    when the child defines one; and merges [rules] and [rulesets] key by
    key, the child's whole value winning for a key both define.  Parent
    rules {a: true, b: false} with child rules {b: true, c: true} give
    {a: true, b: true, c: true}. *)
Theorem mergeConfigs_precedence (parent child : ApiGuardianConfig) :
  let merged := mergeConfigs parent child in
  defaultSeverity merged
    = match defaultSeverity child with
      | Some s => Some s
      | None => defaultSeverity parent
      end ∧
  failOnWarnings merged
    = match failOnWarnings child with
      | Some b => Some b
      | None => failOnWarnings parent
      end ∧
  showInfo merged
    = match showInfo child with
      | Some b => Some b
      | None => showInfo parent
      end ∧
  files merged
    = match files child with
      | Some fs => Some fs
      | None => files parent
      end ∧
  (∃ rs, rules merged = Some rs ∧
     ∀ k, rs !! k = match rules child ≫= (.!! k) with
                    | Some setting => Some setting
                    | None => rules parent ≫= (.!! k)
                    end) ∧
  (∃ rss, rulesets merged = Some rss ∧
     ∀ k, rss !! k = match rulesets child ≫= (.!! k) with
                     | Some entry => Some entry
                     | None => rulesets parent ≫= (.!! k)
                     end) ∧
  rules (mergeConfigs mergeParent mergeChild)
    = Some (list_to_map [ ("a", SettingBool true); ("b", SettingBool true);
                          ("c", SettingBool true) ]%string).
Proof.
  cbv zeta. repeat split.
  - eexists. split; [reflexivity|]. intros k. apply spread2_lookup.
  - eexists. split; [reflexivity|]. intros k. apply spread2_lookup.
Qed.

(** *** The recursion budget

    A run that ends within some budget ends the same way within any larger
    one: the budget only separates runs that end from runs that do not. *)

Section Budget.

Variable disk : string → Exc ConfigError ApiGuardianConfig.
Variable resolve : string → string → string.

Lemma resolveEntry_refines rec rec' (basePath ext : string) (cache : Cache)
    (r : Res Entry) (cache' : Cache) :
  refines rec rec' →
  resolveEntry disk resolve rec basePath ext cache = (r, cache') → r ≠ Diverges →
  resolveEntry disk resolve rec' basePath ext cache = (r, cache').
Proof.
  intros Href. unfold resolveEntry.
  destruct (includes_char slash ext || includes_char backslash ext); [|done].
  destruct (loadConfig disk (resolve basePath ext) cache) as [[loaded|e] cache1]; [|done].
  destruct (rec loaded (resolve basePath ext) cache1) as [r0 cache2] eqn:Hrec.
  intros Hrun Hend.
  assert (Hr0 : r0 ≠ Diverges).
  { intros ->. by inversion Hrun; subst. }
  by rewrite (Href _ _ _ _ _ Hrec Hr0).
Qed.

Lemma extendsLoop_refines rec rec' (config : ApiGuardianConfig) (basePath : string)
    (exts : list string) :
  refines rec rec' →
  ∀ merged cache r cache',
    extendsLoop disk resolve rec config basePath exts merged cache = (r, cache') →
    r ≠ Diverges →
    extendsLoop disk resolve rec' config basePath exts merged cache = (r, cache').
Proof.
  intros Href. induction exts as [|ext rest IH]; intros merged cache r cache'; simpl.
  - done.
  - destruct (resolveEntry disk resolve rec basePath ext cache) as [r0 cache1] eqn:Hentry.
    intros Hrun Hend.
    assert (Hr0 : r0 ≠ Diverges).
    { intros ->. by inversion Hrun; subst. }
    rewrite (resolveEntry_refines _ _ _ _ _ _ _ Href Hentry Hr0).
    destruct r0 as [[extConfig|]|e|]; [by apply IH | by apply IH | done | done].
Qed.

Lemma resolveExtends_budget (fuel : nat) :
  refines (resolveExtends disk resolve fuel) (resolveExtends disk resolve (S fuel)).
Proof.
  induction fuel as [|fuel IH]; intros config basePath cache r cache'.
  - simpl. destruct (extendsArray config); [|done].
    intros Hrun Hend. by inversion Hrun; subst.
  - change (resolveExtends disk resolve (S (S fuel)) config basePath cache)
      with (match extendsArray config with
            | None => (Done config, cache)
            | Some exts =>
                extendsLoop disk resolve (resolveExtends disk resolve (S fuel))
                  config basePath exts DEFAULT_CONFIG cache
            end).
    simpl. destruct (extendsArray config) as [exts|]; [|done].
    by apply extendsLoop_refines.
Qed.

End Budget.

(** *** C4 *)

Section Ordering.

Variable disk : string → Exc ConfigError ApiGuardianConfig.
Variable resolve : string → string → string.
Variable rec : ApiGuardianConfig → string → Cache → Res ApiGuardianConfig * Cache.


End Ordering.






(** *** C9 *)

Section Namespaces.

Variable disk : string → Exc ConfigError ApiGuardianConfig.
Variable resolve : string → string → string.
Variable rec : ApiGuardianConfig → string → Cache → Res ApiGuardianConfig * Cache.

(** The own keys of the preset table are exactly the three presets. *)
Lemma preset_table_dom :
  dom preset_table = ({[ "strict"; "standard"; "lenient" ]} : gset string)%string.
Proof. reflexivity. Qed.

Lemma spectral_skipped (basePath ext : string) (cache : Cache) :
  includes_char slash ext || includes_char backslash ext = false →
  key_of (split colon ext !! 0%nat) = "spectral"%string →
  resolveEntry disk resolve rec basePath ext cache = (Done Skip, cache).
Proof. intros Hsep Hns. unfold resolveEntry. by rewrite Hsep, Hns. Qed.

Lemma unknown_namespace_fails (basePath ext : string) (cache : Cache) :
  includes_char slash ext || includes_char backslash ext = false →
  let namespace := key_of (split colon ext !! 0%nat) in
  namespace ≠ "api-guardian"%string → namespace ≠ "preset"%string →
  namespace ≠ "spectral"%string →
  resolveEntry disk resolve rec basePath ext cache
  = (Fails (unknownNamespace namespace ext), cache).
Proof.
  intros Hsep namespace H1 H2 H3. unfold resolveEntry. rewrite Hsep.
  fold namespace.
  apply String.eqb_neq in H1, H2, H3. by rewrite H1, H2, H3.
Qed.

(** A preset name that is neither an own key of the table nor a name
    inherited from [Object.prototype] is rejected, and the error names the
    three presets. *)
Lemma unknown_preset_fails (basePath ext : string) (cache : Cache) :
  includes_char slash ext || includes_char backslash ext = false →
  let namespace := key_of (split colon ext !! 0%nat) in
  let preset := key_of (split colon ext !! 1%nat) in
  namespace = "api-guardian"%string ∨ namespace = "preset"%string →
  preset_table !! preset = None → inherited preset = false →
  resolveEntry disk resolve rec basePath ext cache = (Fails (unknownPreset ext), cache) ∧
  ce_suggestion (unknownPreset ext)
  = Some "Use one of: api-guardian:strict, api-guardian:standard, api-guardian:lenient"%string.
Proof.
  intros Hsep namespace preset Hns Htable Hinh. split; [|reflexivity].
  unfold resolveEntry, getPresetRuleset. rewrite Hsep.
  fold namespace. fold preset. rewrite Htable, Hinh.
  by destruct Hns as [-> | ->].
Qed.

(** A known preset resolves to a configuration holding that ruleset. *)
Lemma known_preset_resolves (basePath ext : string) (cache : Cache)
    (d : RulesetDefinition) :
  includes_char slash ext || includes_char backslash ext = false →
  let namespace := key_of (split colon ext !! 0%nat) in
  let preset := key_of (split colon ext !! 1%nat) in
  namespace = "api-guardian"%string ∨ namespace = "preset"%string →
  preset_table !! preset = Some d →
  resolveEntry disk resolve rec basePath ext cache
  = (Done (Extension (mkConfig None None (Some {[ preset := RulesetDef d ]})
                        None None None None ∅)), cache).
Proof.
  intros Hsep namespace preset Hns Htable.
  unfold resolveEntry, getPresetRuleset. rewrite Hsep.
  fold namespace. fold preset. rewrite Htable.
  by destruct Hns as [-> | ->].
Qed.

End Namespaces.

(** C9 at the entry [api-guardian:constructor]: "constructor" is not one
    of the three presets, yet [getPresetRuleset] hands back the member
    inherited from [Object.prototype], no configuration error is raised, and
    resolution completes with that member stored under [rulesets]. *)
Theorem inherited_preset_name_accepted
    (disk : string → Exc ConfigError ApiGuardianConfig)
    (resolve : string → string → string) (fuel : nat)
    (basePath : string) (cache : Cache) :
  preset_table !! "constructor"%string = None ∧
  getPresetRuleset "constructor" = Some (PrototypeMember "constructor") ∧
  ∃ resolved,
    resolveExtends disk resolve (S fuel) extendsConstructor basePath cache
      = (Done resolved, cache) ∧
    ruleset_at "constructor" resolved = Some (PrototypeMember "constructor").
Proof.
  split; [reflexivity|]. split; [reflexivity|].
  eexists. split; reflexivity.
Qed.

End ConfigFacts.

(** ** Orchestrator *)

Module ValidatorFacts.

Import RuleRegistry RuleEngine Validator Fixtures.

(** C8: [validate] never throws, but it never validates either.  For every
    validator, path and default severity the loader call is a [TypeError]
    caught by the [catch] block, so the result is always the failure
    report: [spec = null], [valid = false], no issues, no rule executed,
    and "this.specLoader.load is not a function" in [metadata.error].  No
    document is ever loaded, [executeAll] is never reached, and [valid] is
    never true. *)
Theorem validate_never_loads (v : Validator.t) (specPath : string)
    (defaultSeverity : option IssueSeverity) :
  validate v specPath defaultSeverity
  = Ret (mkResult JNull false [] (mkResultStats 0 0)
           (mkMetadata (provided v) (getCount (registry v)) None
              (Some "this.specLoader.load is not a function"%string))).
Proof. reflexivity. Qed.

(** A validator holding a rule that reports a warning only: the result is
    not valid, and the rule has not run. *)
Example validate_valid_document_fails :
  ∃ result,
    validate (Validator.mk regWarnOnly None) "openapi.yaml" None = Ret result ∧
    valid result = false ∧ spec result = JNull ∧
    rulesExecuted (stats result) = 0%nat ∧ ruleCount (metadata result) = 1%nat.
Proof. eexists. repeat split. Qed.

End ValidatorFacts.

(** * Further properties *)

Set Warnings "-clear-no-such-hyp".

(** ** Registry: registration, categories, statistics, overrides *)

Module RegistryMore.

Import RuleRegistry Fixtures RegistryNotions.

Lemma get_snoc_other (rs : list Rule) (rule : Rule) (ruleId : string) :
  ruleId ≠ id rule →
  List.find (λ r, String.eqb (id r) ruleId) (rs ++ [rule])
  = List.find (λ r, String.eqb (id r) ruleId) rs.
Proof.
  intros Hne. induction rs as [|r rs IH]; simpl.
  - destruct (String.eqb_spec (id rule) ruleId); [congruence | done].
  - by destruct (String.eqb (id r) ruleId).
Qed.

Lemma get_None_iff (reg : t) (ruleId : string) :
  get reg ruleId = None ↔ ruleId ∉ getAllIds reg.
Proof.
  unfold get, getAllIds. induction (rules reg) as [|r rs IH]; simpl.
  - split; [intros _; apply not_elem_of_nil | done].
  - destruct (String.eqb_spec (id r) ruleId) as [Heq|Hne].
    + split; [done|]. intros Hnot. exfalso. apply Hnot. rewrite Heq. left.
    + rewrite IH. rewrite not_elem_of_cons.
      split; [intros Hnot; split; [congruence | done] | by intros [_ ?]].
Qed.

Lemma get_Some_id (reg : t) (ruleId : string) (rule : Rule) :
  get reg ruleId = Some rule → id rule = ruleId ∧ rule ∈ rules reg.
Proof.
  unfold get. intros Hfind. apply List.find_some in Hfind as [Hin Heq].
  split; [by apply String.eqb_eq | by apply list_elem_of_In].
Qed.

Lemma register_Ret (rule : Rule) (reg : t) :
  get reg (id rule) = None →
  register rule reg
  = Ret (mk (rules reg ++ [rule])
            (track (category rule) (id rule) (ruleCategories reg))
            (overrides reg)).
Proof.
  intros Hnone. unfold register, has. rewrite Hnone.
  by rewrite bool_decide_eq_false_2 by (intros [? ?]; done).
Qed.

Lemma register_Throw (rule : Rule) (reg : t) :
  is_Some (get reg (id rule)) →
  register rule reg = Throw (alreadyRegistered (id rule)).
Proof.
  intros Hsome. unfold register, has. by rewrite bool_decide_eq_true_2.
Qed.

(** X1: registering a rule under an id the registry does not hold succeeds:
    the rule becomes retrievable under its id, it is last in the id list,
    every other id resolves as before, the overrides are untouched, and any
    later registration under the same id throws, whatever the rule's body.
    Registering under an id the registry already holds throws. *)
Theorem register_fresh_or_duplicate (rule : Rule) (reg : t) :
  (get reg (id rule) = None →
     ∃ reg',
       register rule reg = Ret reg' ∧
       get reg' (id rule) = Some rule ∧
       getAllIds reg' = getAllIds reg ++ [id rule] ∧
       (∀ ruleId, ruleId ≠ id rule → get reg' ruleId = get reg ruleId) ∧
       overrides reg' = overrides reg ∧
       ∀ other, id other = id rule →
         register other reg' = Throw (alreadyRegistered (id rule))) ∧
  (is_Some (get reg (id rule)) →
     register rule reg = Throw (alreadyRegistered (id rule))).
Proof.
  split; [|apply register_Throw].
  intros Hnone. eexists. split; [by apply register_Ret|].
  assert (Hget : get (mk (rules reg ++ [rule])
                        (track (category rule) (id rule) (ruleCategories reg))
                        (overrides reg)) (id rule) = Some rule).
  { unfold get; simpl. by apply RegistryFacts.get_app_fresh. }
  split; [exact Hget|]. split.
  - unfold getAllIds; simpl. by rewrite map_app.
  - split; [|split; [done|]].
    + intros ruleId Hne. unfold get; simpl. by apply get_snoc_other.
    + intros other Hid. rewrite <- Hid. apply register_Throw.
      rewrite Hid, Hget. by eexists.
Qed.

Lemma register_fresh_or_duplicate_witness :
  (∃ reg', register xRule regR = Ret reg' ∧ getAllIds reg' = ["R"; "x-rule"]%string) ∧
  register (quiet "R" HINT) regR = Throw (alreadyRegistered "R").
Proof.
  destruct (register_fresh_or_duplicate xRule regR) as (Hfresh & _).
  destruct (register_fresh_or_duplicate (quiet "R" HINT) regR) as (_ & Hdup).
  split.
  - destruct (Hfresh eq_refl) as (reg' & Hrun & _ & Hids & _).
    exists reg'. split; [exact Hrun | exact Hids].
  - apply Hdup. by eexists.
Defined.

Lemma registerBatch_rules (rs : list Rule) :
  ∀ reg reg', registerBatch rs reg = Ret reg' →
    rules reg' = rules reg ++ rs ∧ overrides reg' = overrides reg.
Proof.
  induction rs as [|r rs IH]; intros reg reg'; simpl.
  - intros [= <-]. by rewrite app_nil_r.
  - unfold register. destruct (has reg (id r)); simpl; [done|].
    intros Hrest. apply IH in Hrest as [-> ->]. simpl.
    by rewrite <- app_assoc.
Qed.

Lemma registerBatch_succeeds_iff (rs : list Rule) :
  ∀ reg, (∃ reg', registerBatch rs reg = Ret reg')
         ↔ NoDup (id <$> rs) ∧ ∀ r, r ∈ rs → id r ∉ getAllIds reg.
Proof.
  induction rs as [|r rs IH]; intros reg; simpl.
  - split; [|by eauto]. intros _. split; [constructor|]. by intros r ?%elem_of_nil.
  - destruct (get reg (id r)) as [found|] eqn:Hget.
    + rewrite register_Throw by (by eexists). simpl. split; [by intros [? ?]|].
      intros [_ Hfresh]. exfalso.
      apply (Hfresh r); [left|]. apply dec_stable. intros Hnot.
      apply get_None_iff in Hnot. congruence.
    + rewrite register_Ret by done. simpl. rewrite IH.
      unfold getAllIds at 1; simpl. rewrite NoDup_cons.
      apply get_None_iff in Hget. unfold getAllIds in *.
      split.
      * intros [Hnd Hfresh]. split; [split; [|done]|].
        -- intros (r' & Heq & Hin)%list_elem_of_fmap.
           apply (Hfresh r' Hin). rewrite map_app, elem_of_app. right.
           rewrite <- Heq. simpl. left.
        -- intros r' [->|Hin]%elem_of_cons; [done|].
           intros Hold. apply (Hfresh r' Hin). rewrite map_app, elem_of_app. by left.
      * intros [[Hhead Hnd] Hfresh]. split; [done|].
        intros r' Hin. rewrite map_app, elem_of_app. intros [Hold|Hnew].
        -- apply (Hfresh r'); [by right | done].
        -- simpl in Hnew. apply list_elem_of_singleton in Hnew.
           apply Hhead. rewrite <- Hnew. by apply list_elem_of_fmap_2.
Qed.

(** X2: [registerBatch] on an empty registry succeeds exactly when the ids
    of the batch are pairwise distinct, and the registry then holds the
    rules of the batch in their order, with no overrides. *)
Theorem registerBatch_empty (rs : list Rule) :
  ((∃ reg, registerBatch rs empty = Ret reg) ↔ NoDup (id <$> rs)) ∧
  (∀ reg, registerBatch rs empty = Ret reg →
     getAll reg = rs ∧ getAllIds reg = id <$> rs ∧ overrides reg = ∅).
Proof.
  split.
  - rewrite registerBatch_succeeds_iff. split; [by intros [? _]|].
    intros Hnd. split; [done|]. intros r _. apply not_elem_of_nil.
  - intros reg Hrun. apply registerBatch_rules in Hrun as [Hrules Hov].
    unfold getAll, getAllIds. rewrite Hrules. by simpl.
Qed.

Lemma registerBatch_empty_witness :
  getAll regBatch = [boomRule; xRule; offRule] ∧
  getAllIds regBatch = ["boom-rule"; "x-rule"; "off-rule"]%string.
Proof.
  destruct (registerBatch_empty [boomRule; xRule; offRule]) as (_ & H).
  destruct (H regBatch eq_refl) as (Hall & Hids & _). split; [exact Hall | exact Hids].
Defined.

(** X3: [registerBatch] is not atomic.  It registers the rules of the batch
    in order up to the first one whose id is taken; when it throws there,
    the rules before that one remain registered, and the error names the
    id that was taken. *)
Theorem registerBatch_keeps_prefix (rs : list Rule) (reg : t) :
  ∃ k,
    rules (registerBatchIn rs reg).1 = rules reg ++ take k rs ∧
    overrides (registerBatchIn rs reg).1 = overrides reg ∧
    match (registerBatchIn rs reg).2 with
    | None =>
        k = length rs ∧ registerBatch rs reg = Ret (registerBatchIn rs reg).1
    | Some e =>
        registerBatch rs reg = Throw e ∧
        ∃ d, rs !! k = Some d ∧ e = alreadyRegistered (id d) ∧
             is_Some (get (registerBatchIn rs reg).1 (id d))
    end.
Proof.
  revert reg. induction rs as [|r rs IH]; intros reg; simpl.
  - exists 0%nat. simpl. by rewrite app_nil_r.
  - destruct (get reg (id r)) as [found|] eqn:Hget.
    + rewrite register_Throw by (by eexists). simpl.
      exists 0%nat. simpl. rewrite app_nil_r. repeat split.
      exists r. rewrite Hget. by eauto.
    + rewrite register_Ret by done. simpl.
      destruct (IH (mk (rules reg ++ [r])
                       (track (category r) (id r) (ruleCategories reg))
                       (overrides reg))) as (k & Hrules & Hov & Hout).
      exists (S k). simpl in *. rewrite Hrules, <- app_assoc.
      split; [done|]. split; [done|].
      destruct ((registerBatchIn rs _).2) as [e|].
      * destruct Hout as (Hthrow & d & Hd & He & Hsome). eauto 10.
      * destruct Hout as (-> & Hrun). by split.
Qed.

(** *** The category index *)

Lemma track_categoryIds (c c0 : RuleCategory) (ruleId : string)
    (idx : list (RuleCategory * list string)) :
  categoryIds c (track c0 ruleId idx)
  = if decide (c = c0)
    then (if existsb (String.eqb ruleId) (categoryIds c0 idx)
          then categoryIds c0 idx else categoryIds c0 idx ++ [ruleId])
    else categoryIds c idx.
Proof.
  induction idx as [|[c' ids] rest IH]; simpl.
  - by destruct (decide (c = c0)).
  - destruct (decide (c0 = c')) as [->|Hne]; simpl.
    + by destruct (decide (c = c')).
    + destruct (decide (c = c')) as [->|Hc].
      * by destruct (decide (c' = c0)).
      * rewrite IH. by destruct (decide (c = c0)).
Qed.

Lemma track_keys (c0 : RuleCategory) (ruleId : string)
    (idx : list (RuleCategory * list string)) (c : RuleCategory) :
  c ∈ (track c0 ruleId idx).*1 ↔ c ∈ idx.*1 ∨ c = c0.
Proof.
  induction idx as [|[c' ids] rest IH]; simpl.
  - rewrite list_elem_of_singleton, elem_of_nil. naive_solver.
  - destruct (decide (c0 = c')) as [->|Hne]; simpl.
    + rewrite elem_of_cons. naive_solver.
    + rewrite !elem_of_cons, IH. naive_solver.
Qed.

Lemma track_sum (c0 : RuleCategory) (ruleId : string)
    (idx : list (RuleCategory * list string)) :
  existsb (String.eqb ruleId) (categoryIds c0 idx) = false →
  sum_list ((prod_map Datatypes.id (@length string) <$> track c0 ruleId idx).*2)
  = S (sum_list ((prod_map Datatypes.id (@length string) <$> idx).*2)).
Proof.
  induction idx as [|[c' ids] rest IH]; csimpl; [done|].
  destruct (decide (c0 = c')) as [->|Hne]; csimpl.
  - intros ->. csimpl. rewrite length_app. simpl. lia.
  - intros Hfresh. rewrite IH by done. lia.
Qed.

Lemma existsb_eqb_false (ruleId : string) (ids : list string) :
  ruleId ∉ ids → existsb (String.eqb ruleId) ids = false.
Proof.
  induction ids as [|x ids IH]; simpl; [done|].
  rewrite not_elem_of_cons. intros [Hne Hrest].
  apply String.eqb_neq in Hne. by rewrite Hne, IH.
Qed.

Lemma ids_of_subset (c : RuleCategory) (rs : list Rule) (ruleId : string) :
  ruleId ∈ ids_of c rs → ruleId ∈ id <$> rs.
Proof.
  unfold ids_of. intros (r & -> & Hin)%list_elem_of_fmap.
  apply list_elem_of_filter in Hin as [_ Hin]. by apply list_elem_of_fmap_2.
Qed.

Lemma ids_of_snoc (c : RuleCategory) (rs : list Rule) (rule : Rule) :
  ids_of c (rs ++ [rule])
  = ids_of c rs ++ (if decide (category rule = c) then [id rule] else []).
Proof.
  unfold ids_of. rewrite filter_app, fmap_app. f_equal.
  rewrite filter_cons, filter_nil. by destruct (decide (category rule = c)).
Qed.

Lemma indexed_empty : indexed empty.
Proof.
  repeat split; simpl; try done.
  - constructor.
  - by intros ?%elem_of_nil.
Qed.

Lemma indexed_register (rule : Rule) (reg reg' : t) :
  indexed reg → register rule reg = Ret reg' → indexed reg'.
Proof.
  intros (Hnd & Hidx & Hsum & Hcat) Hrun.
  destruct (get reg (id rule)) as [found|] eqn:Hget.
  { rewrite register_Throw in Hrun by (by eexists). done. }
  rewrite register_Ret in Hrun by done. injection Hrun as <-.
  apply get_None_iff in Hget.
  assert (Hfresh : existsb (String.eqb (id rule))
                     (categoryIds (category rule) (ruleCategories reg)) = false).
  { apply existsb_eqb_false. rewrite Hidx. intros Hin. apply Hget.
    by apply ids_of_subset in Hin. }
  unfold indexed, getAllIds, getAllCategories, getStats in *; simpl in *.
  split; [|split; [|split]].
  - rewrite map_app. simpl. apply NoDup_app. split; [done|]. split.
    + intros x Hx [->|?%elem_of_nil]%elem_of_cons; done.
    + apply NoDup_singleton.
  - intros c. rewrite track_categoryIds, ids_of_snoc.
    destruct (decide (c = category rule)) as [->|Hne].
    + rewrite Hfresh, Hidx. by rewrite decide_True.
    + rewrite Hidx. rewrite decide_False by done. by rewrite app_nil_r.
  - rewrite track_sum by done. rewrite Hsum, length_app. simpl. lia.
  - intros c. rewrite track_keys, track_categoryIds, Hcat.
    destruct (decide (c = category rule)) as [->|Hne].
    + rewrite Hfresh. split; [|by right]. intros _ Hnil.
      by apply app_eq_nil in Hnil as [_ ?].
    + naive_solver.
Qed.

Lemma indexed_registerBatchIn (rs : list Rule) :
  ∀ reg, indexed reg → indexed (registerBatchIn rs reg).1.
Proof.
  induction rs as [|r rs IH]; intros reg Hreg; simpl; [done|].
  destruct (register r reg) as [reg'|e] eqn:Hrun; [|done].
  apply IH. by apply (indexed_register r reg).
Qed.

Lemma applyOverrides_rules (ruleConfigs : list (string * RuleSetting)) :
  ∀ reg, rules (applyOverrides ruleConfigs reg) = rules reg ∧
         ruleCategories (applyOverrides ruleConfigs reg) = ruleCategories reg.
Proof.
  unfold applyOverrides.
  induction ruleConfigs as [|entry rest IH]; intros reg; simpl; [done|].
  destruct (IH (setOverride reg entry)) as [-> ->]. done.
Qed.

Lemma indexed_applyOverrides (ruleConfigs : list (string * RuleSetting)) (reg : t) :
  indexed reg → indexed (applyOverrides ruleConfigs reg).
Proof.
  destruct (applyOverrides_rules ruleConfigs reg) as [Hr Hc].
  unfold indexed, getAllIds, getAllCategories, getStats; simpl.
  by rewrite Hr, Hc.
Qed.

Lemma get_member (reg : t) (rule : Rule) :
  NoDup (getAllIds reg) → rule ∈ rules reg → get reg (id rule) = Some rule.
Proof.
  unfold get, getAllIds. induction (rules reg) as [|r rs IH]; simpl.
  - by intros _ ?%elem_of_nil.
  - rewrite NoDup_cons. intros [Hhead Hnd] [->|Hin]%elem_of_cons.
    + by rewrite String.eqb_refl.
    + destruct (String.eqb_spec (id r) (id rule)) as [Heq|Hne]; [|by apply IH].
      exfalso. apply Hhead. rewrite Heq. by apply list_elem_of_fmap_2.
Qed.

Lemma getByCategory_indexed (reg : t) (c : RuleCategory) :
  indexed reg →
  getByCategory reg c = filter (λ r, category r = c) (rules reg).
Proof.
  intros (Hnd & Hidx & _). unfold getByCategory. rewrite Hidx. unfold ids_of.
  assert (Hall : ∀ r, r ∈ filter (λ r, category r = c) (rules reg) →
                      get reg (id r) = Some r).
  { intros r [_ Hin]%list_elem_of_filter. by apply get_member. }
  induction (filter (λ r, category r = c) (rules reg)) as [|r l IH]; simpl; [done|].
  rewrite Hall by left. simpl. f_equal. apply IH.
  intros r' Hin. apply Hall. by right.
Qed.

(** X4: in a registry built by registering rules into an empty one (a
    batch that throws half way included) and applying overrides,
    [getByCategory] returns exactly the registered rules of that category,
    in registration order, and [getAllCategories] lists exactly the
    categories that have at least one rule. *)
Theorem getByCategory_registered (rs : list Rule)
    (ruleConfigs : list (string * RuleSetting)) (c : RuleCategory) :
  let reg := applyOverrides ruleConfigs (registerBatchIn rs empty).1 in
  getByCategory reg c = filter (λ r, category r = c) (getAll reg) ∧
  (c ∈ getAllCategories reg ↔ getByCategory reg c ≠ []).
Proof.
  intros reg.
  assert (Hidx : indexed reg).
  { apply indexed_applyOverrides, indexed_registerBatchIn, indexed_empty. }
  split; [by apply getByCategory_indexed|].
  destruct Hidx as (Hnd & Hids & Hsum & Hcat).
  rewrite Hcat. unfold getByCategory.
  assert (Hmem : ∀ x, x ∈ categoryIds c (ruleCategories reg) →
                      is_Some (get reg x)).
  { intros x Hx. rewrite Hids in Hx.
    apply ids_of_subset in Hx. apply dec_stable. intros Hnone.
    apply eq_None_not_Some in Hnone. by apply get_None_iff in Hnone. }
  destruct (categoryIds c (ruleCategories reg)) as [|x l]; [done|].
  split; [|done]. intros _. simpl.
  destruct (Hmem x) as [r ->]; [left|]. done.
Qed.

Lemma filter_ids_length (f : string → bool) (rs : list Rule) :
  length (List.filter (λ rule, f (id rule)) rs) = length (List.filter f (map id rs)).
Proof.
  induction rs as [|r l IH]; simpl; [done|].
  destruct (f (id r)); simpl; by rewrite IH.
Qed.

(** X5: the statistics of such a registry are consistent: [totalRules] is
    the number of registered rules, the per-category counts add up to it,
    [enabledRules] never exceeds it, and [overridesApplied] is the number of
    ids that carry an override. *)
Theorem getStats_consistent (rs : list Rule)
    (ruleConfigs : list (string * RuleSetting)) :
  let reg := applyOverrides ruleConfigs (registerBatchIn rs empty).1 in
  totalRules (getStats reg) = getCount reg ∧
  sum_list (rulesByCategory (getStats reg)).*2 = totalRules (getStats reg) ∧
  (enabledRules (getStats reg) ≤ totalRules (getStats reg))%nat ∧
  enabledRules (getStats reg)
    = length (List.filter (isEnabled reg) (getAllIds reg)) ∧
  overridesApplied (getStats reg) = size (dom (overrides reg)).
Proof.
  intros reg.
  assert (Hidx : indexed reg).
  { apply indexed_applyOverrides, indexed_registerBatchIn, indexed_empty. }
  destruct Hidx as (_ & _ & Hsum & _).
  split; [done|]. split; [exact Hsum|]. split; [|split].
  - simpl. apply List.filter_length_le.
  - simpl. unfold getAllIds. apply filter_ids_length.
  - simpl. by rewrite size_dom.
Qed.

(** *** Overrides *)

Lemma applyOverrides_lookup (ruleConfigs : list (string * RuleSetting))
    (ruleId : string) :
  ∀ reg,
    overrides (applyOverrides ruleConfigs reg) !! ruleId
    = match last_setting ruleId ruleConfigs with
      | Some s => Some (as_config s)
      | None => overrides reg !! ruleId
      end.
Proof.
  unfold applyOverrides.
  induction ruleConfigs as [|[k s] rest IH]; intros reg; simpl; [done|].
  rewrite IH. destruct (last_setting ruleId rest); [done|].
  unfold setOverride; simpl.
  destruct (String.eqb_spec k ruleId) as [->|Hne].
  - rewrite lookup_insert_eq. by destruct s.
  - by rewrite lookup_insert_ne.
Qed.

Lemma getEffectiveRule_same_override (reg reg' : t) (ruleId : string)
    (ds : option IssueSeverity) :
  rules reg' = rules reg → overrides reg' !! ruleId = overrides reg !! ruleId →
  getEffectiveRule reg' ruleId ds = getEffectiveRule reg ruleId ds.
Proof. intros Hr Ho. unfold getEffectiveRule, get. by rewrite Hr, Ho. Qed.

(** X6: however many overrides were applied, [clearOverrides] brings every
    rule back to its registered definition: the effective rule is the
    registered one for every default severity, a rule is enabled unless it
    was registered with [enabled: false], the registered ids are the same,
    and the statistics count no overrides. *)
Theorem clearOverrides_restores (reg : t)
    (ruleConfigs : list (string * RuleSetting)) (ruleId : string)
    (ds : option IssueSeverity) :
  let cleared := clearOverrides (applyOverrides ruleConfigs reg) in
  getEffectiveRule cleared ruleId ds = get reg ruleId ∧
  isEnabled cleared ruleId
    = match get reg ruleId with
      | Some rule => negb (bool_decide (enabled rule = Some false))
      | None => false
      end ∧
  getAllIds cleared = getAllIds reg ∧
  overridesApplied (getStats cleared) = 0%nat.
Proof.
  destruct (applyOverrides_rules ruleConfigs reg) as [Hr _].
  cbv zeta. unfold isEnabled, getEffectiveRule, get, getAllIds, clearOverrides.
  simpl. rewrite Hr, lookup_empty.
  repeat split; by destruct (List.find _ (rules reg)).
Qed.

(** X7: after [applyOverrides] with a batch of entries, the override stored
    for an id is the one of the last entry for that id in the batch (a bare
    boolean standing for [{enabled: b}]); an id the batch does not mention
    keeps the override it had, and its effective rule is unchanged.  The
    registered rules are never touched, and an entry for an id that is not
    registered is stored like any other. *)
Theorem applyOverrides_batch (reg : t)
    (ruleConfigs : list (string * RuleSetting)) (ruleId : string) :
  getAll (applyOverrides ruleConfigs reg) = getAll reg ∧
  (∀ s, last_setting ruleId ruleConfigs = Some s →
     overrides (applyOverrides ruleConfigs reg) !! ruleId = Some (as_config s)) ∧
  (last_setting ruleId ruleConfigs = None →
     overrides (applyOverrides ruleConfigs reg) !! ruleId = overrides reg !! ruleId ∧
     ∀ ds, getEffectiveRule (applyOverrides ruleConfigs reg) ruleId ds
           = getEffectiveRule reg ruleId ds).
Proof.
  destruct (applyOverrides_rules ruleConfigs reg) as [Hr _].
  pose proof (applyOverrides_lookup ruleConfigs ruleId reg) as Hlook.
  split; [exact Hr|]. split.
  - intros s Hs. by rewrite Hlook, Hs.
  - intros Hnone. rewrite Hnone in Hlook. split; [done|].
    intros ds. by apply getEffectiveRule_same_override.
Qed.

Lemma applyOverrides_batch_witness :
  let reg := applyOverrides [ ("R", SettingConfig (severityOnly WARNING));
                              ("ghost", SettingBool true);
                              ("R", SettingBool false) ]%string regR in
  overrides reg !! "R"%string = Some (enabledOnly false) ∧
  overrides reg !! "ghost"%string = Some (enabledOnly true) ∧
  overrides reg !! "x-rule"%string = None.
Proof.
  cbv zeta.
  set (batch := [ ("R", SettingConfig (severityOnly WARNING));
                  ("ghost", SettingBool true);
                  ("R", SettingBool false) ]%string).
  destruct (applyOverrides_batch regR batch "R") as (_ & HR & _).
  destruct (applyOverrides_batch regR batch "ghost") as (_ & Hghost & _).
  destruct (applyOverrides_batch regR batch "x-rule") as (_ & _ & Hx).
  split; [|split].
  - apply (HR (SettingBool false)). reflexivity.
  - apply (Hghost (SettingBool true)). reflexivity.
  - apply Hx. reflexivity.
Defined.

Lemma applyOverrides_snoc_rule (ruleConfigs : list (string * RuleSetting))
    (rule : Rule) (idx : list (RuleCategory * list string)) :
  ∀ reg,
    applyOverrides ruleConfigs (mk (rules reg ++ [rule]) idx (overrides reg))
    = mk (rules (applyOverrides ruleConfigs reg) ++ [rule]) idx
         (overrides (applyOverrides ruleConfigs reg)).
Proof.
  unfold applyOverrides.
  induction ruleConfigs as [|entry rest IH]; intros reg; simpl; [done|].
  apply (IH (setOverride reg entry)).
Qed.

(** X8: registration and overrides commute.  Registering a rule after a
    batch of overrides gives the registry that registering it first and
    applying the batch afterwards gives (and throws in the same cases): an
    override stored for an id before that id is registered takes effect as
    soon as the rule is registered. *)
Theorem register_after_overrides (rule : Rule) (reg : t)
    (ruleConfigs : list (string * RuleSetting)) :
  register rule (applyOverrides ruleConfigs reg)
  = match register rule reg with
    | Ret reg' => Ret (applyOverrides ruleConfigs reg')
    | Throw e => Throw e
    end.
Proof.
  destruct (applyOverrides_rules ruleConfigs reg) as [Hr Hc].
  assert (Hget : get (applyOverrides ruleConfigs reg) (id rule) = get reg (id rule)).
  { unfold get. by rewrite Hr. }
  destruct (get reg (id rule)) as [found|] eqn:Hfound.
  - rewrite !register_Throw; [done | by rewrite Hfound | by rewrite Hget].
  - rewrite !register_Ret by done. f_equal.
    rewrite applyOverrides_snoc_rule. by rewrite Hr, Hc.
Qed.

End RegistryMore.

(** ** Engine: batch accounting, normalization, severity *)

Module EngineMore.

Import RuleRegistry RuleEngine Fixtures EngineNotions.

Lemma executeRule_stats (registry : RuleRegistry.t) (ruleId : string)
    (spec : JsVal) (ds : option IssueSeverity) (out : Outcome) :
  executeRule registry ruleId spec ds = Ret out →
  st_ruleId out.2 = ruleId ∧ issuesFound out.2 = length out.1 ∧ stats_sound out.2.
Proof.
  unfold executeRule, stats_sound.
  destruct (get registry ruleId) as [rule|]; simpl.
  - destruct (isEnabled registry ruleId); simpl.
    + destruct (getEffectiveRule registry ruleId ds) as [eff|]; simpl.
      * destruct (fn eff spec (options eff)) as [raw|thrown]; simpl;
          [|destruct (thrown_message thrown) as [message|e]; simpl; [|done]];
          intros [= <-]; simpl; repeat split; try done; try (by intros [? ?]).
      * intros [= <-]; simpl; repeat split; try done; try (by intros [? ?]).
    + intros [= <-]; simpl; repeat split; try done; try (by intros [? ?]).
  - intros [= <-]; simpl; repeat split; try done; try (by intros [? ?]).
Qed.

(** X9: [executeAll] returns exactly when the run of every requested rule
    ends in a result (it throws when a rule throws a value that the
    [catch] block of [executeRule] cannot convert to a message).  When it
    returns, there is one stats record per requested id, in the order
    requested (the registration order when no ids are given), ids that
    are unknown or repeated included; the number of issues returned is the
    sum of the [issuesFound] counts; a record with [executed = false]
    counts no issues, and a record with an error has [executed = false]. *)
Theorem executeAll_accounting (registry : RuleRegistry.t) (spec : JsVal)
    (ruleIds : option (list string)) (ds : option IssueSeverity) :
  ((∃ r, executeAll registry spec ruleIds ds = Ret r)
   ↔ Forall (reports registry spec ds) (default (getAllIds registry) ruleIds)) ∧
  ∀ issues stats,
    executeAll registry spec ruleIds ds = Ret (issues, stats) →
    st_ruleId <$> stats = default (getAllIds registry) ruleIds ∧
    length issues = sum_list (issuesFound <$> stats) ∧
    Forall stats_sound stats.
Proof.
  unfold executeAll. cbv zeta. split.
  - split.
    + intros [r Hr].
      apply EngineFacts.executeLoop_returned in Hr as (outs & HF & _).
      clear -HF. induction HF as [|rid out rids outs Hrun _ IH]; constructor; [|done].
      by exists out.
    + intros Hall.
      destruct (EngineFacts.executeLoop_outcomes registry spec ds _ Hall [] [])
        as (outs & _ & Hloop).
      by eexists.
  - intros issues stats Hr.
    apply EngineFacts.executeLoop_returned in Hr as (outs & HF & [= -> ->]).
    induction HF as [|rid out rids outs Hrun _ IH]; csimpl; [done|].
    apply executeRule_stats in Hrun as (Hid & Hcount & Hsound).
    destruct IH as (IH1 & IH2 & IH3).
    split; [by rewrite Hid, IH1|]. split.
    + rewrite length_app, IH2, Hcount. done.
    + by constructor.
Qed.

(** The batch [boom-rule; x-rule; off-rule; missing] returns: four stats
    records and the one issue of [x-rule]. *)
Lemma executeAll_accounting_witness :
  ∃ issues stats,
    executeAll regBatch JNull
      (Some ["boom-rule"; "x-rule"; "off-rule"; "missing"]%string) None
    = Ret (issues, stats) ∧
    st_ruleId <$> stats = ["boom-rule"; "x-rule"; "off-rule"; "missing"]%string ∧
    length issues = sum_list (issuesFound <$> stats).
Proof.
  destruct (executeAll_accounting regBatch JNull
              (Some ["boom-rule"; "x-rule"; "off-rule"; "missing"]%string) None)
    as [[_ Hreturns] Hcounts].
  destruct Hreturns as [[issues stats] Hrun].
  { repeat (apply Forall_cons; split; [by eexists|]). apply Forall_nil_2. }
  exists issues, stats. split; [exact Hrun|].
  destruct (Hcounts issues stats Hrun) as (Hids & Hsum & _).
  split; [exact Hids | exact Hsum].
Defined.

(** *** Normalization *)

Lemma js_or_idem (v dflt : JsVal) : js_or (js_or v dflt) dflt = js_or v dflt.
Proof. unfold js_or. destruct (truthy v) eqn:Hv; [by rewrite Hv|]. by destruct (truthy dflt). Qed.

Lemma normalizeOne_shape (ruleId ruleName : string) (sev : IssueSeverity)
    (e : JsVal) (issue : ValidationIssue) :
  normalizeOne ruleId ruleName sev e = Some issue →
  issue = mkIssue
    (js_or (get_own "ruleId" e) (JStr ruleId))
    (js_or (get_own "ruleDescription" e) (JStr ruleName))
    (js_or (get_own "severity" e) (JStr (severity_value sev)))
    (js_or (get_own "path" e) (JStr "root"))
    (js_or (get_own "line" e) JUndefined)
    (js_or (get_own "column" e) JUndefined)
    (js_or (get_own "message" e) (JStr EmptyString))
    (js_or (get_own "suggestion" e) JUndefined)
    (js_or (get_own "category" e) JUndefined).
Proof.
  unfold normalizeOne.
  destruct (negb (truthy e) || negb (typeof_object e)); [done|].
  destruct (negb (has_property "message" e)); [done|]. by intros [= <-].
Qed.

(** X10: normalization is idempotent.  An issue the engine produced,
    handed back as a raw result to the same rule, normalizes to itself; so
    normalizing a rule's output a second time changes nothing. *)
Theorem normalize_idempotent (ruleId ruleName : string) (sev : IssueSeverity) :
  (∀ e issue,
     normalizeOne ruleId ruleName sev e = Some issue →
     normalizeOne ruleId ruleName sev (issue_as_raw issue) = Some issue) ∧
  (∀ results,
     normalizeResults
       (JArr (issue_as_raw <$> normalizeResults results ruleId ruleName sev))
       ruleId ruleName sev
     = normalizeResults results ruleId ruleName sev).
Proof.
  assert (Hone : ∀ e issue,
     normalizeOne ruleId ruleName sev e = Some issue →
     normalizeOne ruleId ruleName sev (issue_as_raw issue) = Some issue).
  { intros e issue Hrun. apply normalizeOne_shape in Hrun as ->.
    unfold issue_as_raw.
    rewrite EngineFacts.normalizeOne_object by (by eexists).
    unfold get_own; simpl. by rewrite !js_or_idem. }
  split; [exact Hone|].
  intros results. destruct results as [| | | | | |elems|]; try reflexivity.
  simpl. induction elems as [|e elems IH]; csimpl; [done|].
  destruct (normalizeOne ruleId ruleName sev e) as [issue|] eqn:He; csimpl.
  - pose proof (Hone e issue He) as Hself. rewrite IH. f_equal.
    by injection Hself.
  - exact IH.
Qed.

Lemma normalize_idempotent_witness :
  let raw := JObj [("message", JNull); ("line", JInt 7)]%string in
  ∃ issue,
    normalizeOne "r1" "Rule 1" INFO raw = Some issue ∧
    normalizeOne "r1" "Rule 1" INFO (issue_as_raw issue) = Some issue.
Proof.
  cbv zeta. eexists. split; [reflexivity|].
  apply (normalize_idempotent "r1" "Rule 1" INFO)
    with (e := JObj [("message", JNull); ("line", JInt 7)]%string).
  reflexivity.
Defined.

(** X11: every issue the engine returns has a truthy [severity] and
    [path], a [message] that is either truthy or the empty string, and
    optional fields that are either truthy or absent; the engine never
    returns more issues than the rule function returned elements, and the
    issues of a concatenated output are the concatenated issues. *)
Theorem normalized_issue_fields (ruleId ruleName : string) (sev : IssueSeverity) :
  (∀ results, Forall (λ issue,
            truthy (i_severity issue) = true ∧ truthy (i_path issue) = true ∧
            (truthy (i_message issue) = true ∨ i_message issue = JStr EmptyString) ∧
            Forall (λ v, truthy v = true ∨ v = JUndefined)
              [i_line issue; i_column issue; i_suggestion issue; i_category issue])
    (normalizeResults results ruleId ruleName sev)) ∧
  (∀ elems,
     (length (normalizeResults (JArr elems) ruleId ruleName sev) ≤ length elems)%nat) ∧
  (∀ l1 l2,
     normalizeResults (JArr (l1 ++ l2)) ruleId ruleName sev
     = normalizeResults (JArr l1) ruleId ruleName sev
       ++ normalizeResults (JArr l2) ruleId ruleName sev).
Proof.
  assert (Hor : ∀ v dflt, truthy dflt = true → truthy (js_or v dflt) = true).
  { intros v dflt Hd. unfold js_or. by destruct (truthy v) eqn:Hv. }
  assert (Hopt : ∀ v dflt, truthy (js_or v dflt) = true ∨ js_or v dflt = dflt).
  { intros v dflt. unfold js_or. destruct (truthy v) eqn:Hv; [by left | by right]. }
  split; [|split].
  - intros results. destruct results as [| | | | | |elems|]; try by constructor.
    simpl. induction elems as [|e elems IH]; csimpl; [constructor|].
    destruct (normalizeOne ruleId ruleName sev e) as [issue|] eqn:He; csimpl; [|done].
    constructor; [|done].
    apply normalizeOne_shape in He as ->. simpl.
    split; [apply Hor; by destruct sev|]. split; [by apply Hor|]. split; [apply Hopt|].
    repeat (apply Forall_cons; split; [apply Hopt|]). apply Forall_nil_2.
  - intros elems. simpl.
    induction elems as [|e elems IH]; csimpl; [done|].
    destruct (normalizeOne ruleId ruleName sev e); csimpl; lia.
  - intros l1 l2. simpl. apply omap_app.
Qed.

(** X12: the severity an issue gets.  Each issue of a registered rule
    comes from one element of the rule function's output and carries that
    element's own severity when it is truthy, and otherwise the severity in
    force: the rule's own when no override is stored for the rule, whatever
    default severity is passed; with a stored override, the override's
    severity, or else the default severity passed to [executeRule], and
    only then the rule's own.  So an override that merely says [true] or
    [{enabled: true}] hands the rule over to the caller's default
    severity. *)
Theorem issue_severity_in_force (registry : RuleRegistry.t) (rule eff : Rule)
    (spec : JsVal) (ds : option IssueSeverity)
    (issues : list ValidationIssue) (st : RuleExecutionStats) :
  get registry (id rule) = Some rule →
  getEffectiveRule registry (id rule) ds = Some eff →
  executeRule registry (id rule) spec ds = Ret (issues, st) →
  severity eff = severity_in_force registry rule ds ∧
  Forall (λ issue,
            ∃ e, e ∈ raw_elements (fn rule spec (options eff)) ∧
                 i_severity issue
                 = js_or (get_own "severity" e)
                     (JStr (severity_value (severity_in_force registry rule ds))))
    issues.
Proof.
  intros Hget Heff.
  assert (Hfn : fn eff = fn rule ∧ severity eff = severity_in_force registry rule ds).
  { unfold getEffectiveRule, severity_in_force in *. rewrite Hget in Heff.
    destruct (overrides registry !! id rule); by injection Heff as <-. }
  destruct Hfn as [Hfn Hsev]. intros Hrun. split; [exact Hsev|]. revert Hrun.
  unfold executeRule. rewrite Hget, Heff.
  destruct (isEnabled registry (id rule)); simpl; [|by intros [= <- <-]].
  rewrite Hfn, Hsev.
  destruct (fn rule spec (options eff)) as [raw|thrown]; simpl;
    [|destruct (thrown_message thrown) as [message|e]; simpl; [|done]];
    intros [= <- <-]; [|constructor].
  destruct raw as [| | | | | |elems|]; try by constructor.
  simpl.
  assert (Hgen : ∀ l, l ⊆ elems →
            Forall (λ issue,
              ∃ e, e ∈ elems ∧
                   i_severity issue
                   = js_or (get_own "severity" e)
                       (JStr (severity_value (severity_in_force registry rule ds))))
              (omap (normalizeOne (id rule) (name rule)
                       (severity_in_force registry rule ds)) l)).
  { induction l as [|e l IH]; intros Hsub; csimpl; [constructor|].
    assert (Hl : l ⊆ elems) by (intros x Hx; apply Hsub; by right).
    destruct (normalizeOne _ _ _ e) as [issue|] eqn:He; csimpl; [|by apply IH].
    constructor; [|by apply IH].
    apply normalizeOne_shape in He as ->. simpl.
    exists e. split; [apply Hsub; left | done]. }
  by apply Hgen.
Qed.

(** With the override [true] stored for R, whose own severity is [error],
    and a default severity of [warning], R's issues are warnings; without
    the override they are errors. *)
Lemma issue_severity_in_force_witness :
  severity_in_force (applyOverrides [("err-rule"%string, SettingBool true)] regWithError)
    errRule (Some WARNING) = WARNING ∧
  severity_in_force regWithError errRule (Some WARNING) = ERROR ∧
  ∃ issues st,
    executeRule (applyOverrides [("err-rule"%string, SettingBool true)] regWithError)
      "err-rule" JNull (Some WARNING) = Ret (issues, st) ∧
    i_severity <$> issues = [JStr "warning"].
Proof.
  split; [reflexivity|]. split; [reflexivity|].
  eexists _, _. split; [reflexivity|].
  pose proof (issue_severity_in_force
                (applyOverrides [("err-rule"%string, SettingBool true)] regWithError)
                errRule _ JNull (Some WARNING) _ _ eq_refl eq_refl eq_refl) as [_ H].
  reflexivity.
Defined.

End EngineMore.

(** ** Resolver: merge algebra, cache, cycles, presets *)

Module ConfigMore.

Import Defaults ConfigParser ConfigFixtures ConfigNotions.

Lemma spread2_assoc {V} (a b c : option (gmap string V)) :
  spread2 (Some (spread2 a b)) c = spread2 a (Some (spread2 b c)).
Proof. unfold spread2. simpl. by rewrite (assoc_L (∪)). Qed.

Lemma spread2_twice {V} (a b : option (gmap string V)) :
  spread2 (Some (spread2 a b)) b = spread2 a b.
Proof.
  unfold spread2. simpl. rewrite (assoc_L (∪)). by rewrite (idemp_L (∪)).
Qed.

Lemma custom_filter_twice (m : gmap string JsVal) :
  let kept (m : gmap string JsVal) : gmap string JsVal :=
    filter (λ kv, kv.1 ≠ "__proto__"%string)
      (filter (λ kv, negb (existsb (String.eqb kv.1) fixed_keys) = true) m) in
  kept (kept m) = kept m.
Proof.
  cbv beta zeta. rewrite !map_filter_filter. apply map_filter_ext.
  intros k x _. simpl. tauto.
Qed.

(** X13: [mergeConfigs] is associative, and merging the same child a second
    time changes nothing: layering configurations one after the other gives
    the same result however the merges are grouped. *)
Theorem mergeConfigs_assoc (a b c : ApiGuardianConfig) :
  mergeConfigs (mergeConfigs a b) c = mergeConfigs a (mergeConfigs b c) ∧
  mergeConfigs (mergeConfigs a b) b = mergeConfigs a b.
Proof.
  split.
  - unfold mergeConfigs. simpl. f_equal.
    + by rewrite spread2_assoc.
    + by rewrite spread2_assoc.
    + by destruct (files c), (files b).
    + by destruct (defaultSeverity c), (defaultSeverity b).
    + by destruct (failOnWarnings c), (failOnWarnings b).
    + by destruct (showInfo c), (showInfo b).
    + symmetry. exact (custom_filter_twice (custom c)).
  - unfold mergeConfigs. simpl. f_equal.
    + by rewrite spread2_twice.
    + by rewrite spread2_twice.
    + by destruct (files b).
    + by destruct (defaultSeverity b).
    + by destruct (failOnWarnings b).
    + by destruct (showInfo b).
Qed.

(** *** The load cache *)

Section Cache.

Variable disk : string → Exc ConfigError ApiGuardianConfig.
Variable resolve : string → string → string.

(** X14: [loadConfig] and its cache.  A path that is cached is served from
    the cache without looking at the disk; a successful load stores the
    configuration, so that every later load of the path returns it whatever
    has become of the file; a failed load stores nothing and the cache is
    left as it was. *)
Theorem loadConfig_cache (filePath : string) (cache : Cache) :
  (∀ config, cache !! filePath = Some config →
     ∀ disk', loadConfig disk' filePath cache = (Ret config, cache)) ∧
  (∀ config, cache !! filePath = None → disk filePath = Ret config →
     loadConfig disk filePath cache = (Ret config, <[filePath := config]> cache) ∧
     ∀ disk', loadConfig disk' filePath (loadConfig disk filePath cache).2
              = (Ret config, <[filePath := config]> cache)) ∧
  (∀ e, cache !! filePath = None → disk filePath = Throw e →
     loadConfig disk filePath cache = (Throw e, cache)) ∧
  (∀ other, other ≠ filePath →
     (loadConfig disk filePath cache).2 !! other = cache !! other).
Proof.
  unfold loadConfig. split; [|split; [|split]].
  - by intros config -> disk'.
  - intros config -> ->. split; [done|]. intros disk'. simpl.
    by rewrite lookup_insert_eq.
  - by intros e -> ->.
  - intros other Hne. destruct (cache !! filePath); [done|].
    destruct (disk filePath); simpl; [by rewrite lookup_insert_ne | done].
Qed.

Lemma loadConfig_blind (filePath : string) (cache1 cache2 : Cache) :
  consistent disk cache1 → consistent disk cache2 →
  (loadConfig disk filePath cache1).1 = (loadConfig disk filePath cache2).1 ∧
  consistent disk (loadConfig disk filePath cache1).2 ∧
  cache1 ⊆ (loadConfig disk filePath cache1).2.
Proof.
  intros H1 H2. unfold loadConfig.
  destruct (cache1 !! filePath) as [x|] eqn:Hx; simpl.
  - split; [|done]. pose proof (H1 _ _ Hx) as Hdisk.
    destruct (cache2 !! filePath) as [y|] eqn:Hy; simpl.
    + apply H2 in Hy. congruence.
    + by rewrite Hdisk.
  - assert (Hfst : (match disk filePath with
                    | Ret config => (Ret config, <[filePath:=config]> cache1)
                    | Throw e => (Throw e, cache1)
                    end).1 = disk filePath) by (by destruct (disk filePath)).
    split; [|split].
    + rewrite Hfst. destruct (cache2 !! filePath) as [y|] eqn:Hy; simpl.
      * apply H2 in Hy. by rewrite Hy.
      * by destruct (disk filePath).
    + destruct (disk filePath) as [config|e] eqn:Hdisk; simpl; [|done].
      intros p c. destruct (decide (filePath = p)) as [<-|Hne].
      * rewrite lookup_insert_eq. by intros [= <-].
      * rewrite lookup_insert_ne by done. apply H1.
    + destruct (disk filePath) as [config|e]; simpl; [|done].
      by apply insert_subseteq.
Qed.

Lemma resolveEntry_blind rec (basePath ext : string) :
  (∀ config base, cache_blind disk (rec config base)) →
  cache_blind disk (resolveEntry disk resolve rec basePath ext).
Proof.
  intros Hrec cache1 cache2 H1 H2. unfold resolveEntry.
  destruct (includes_char slash ext || includes_char backslash ext);
    [|by repeat case_match].
  destruct (loadConfig_blind (resolve basePath ext) cache1 cache2 H1 H2)
    as (Hfst & Hcons1 & Hsub1).
  destruct (loadConfig_blind (resolve basePath ext) cache2 cache1 H2 H1)
    as (_ & Hcons2 & _).
  destruct (loadConfig disk (resolve basePath ext) cache1) as [r1 c1'].
  destruct (loadConfig disk (resolve basePath ext) cache2) as [r2 c2'].
  simpl in *. subst r2. destruct r1 as [loaded|e]; [|done].
  destruct (Hrec loaded (resolve basePath ext) c1' c2' Hcons1 Hcons2)
    as (Hr & Hc & Hs).
  destruct (rec loaded (resolve basePath ext) c1') as [x1 d1].
  destruct (rec loaded (resolve basePath ext) c2') as [x2 d2].
  simpl in *. subst x2.
  assert (Hsub : cache1 ⊆ d1) by (by etrans).
  by destruct x1.
Qed.

Lemma extendsLoop_blind rec (config : ApiGuardianConfig) (basePath : string)
    (exts : list string) :
  (∀ config base, cache_blind disk (rec config base)) →
  ∀ merged, cache_blind disk (extendsLoop disk resolve rec config basePath exts merged).
Proof.
  intros Hrec. induction exts as [|ext rest IH]; intros merged cache1 cache2 H1 H2;
    simpl; [done|].
  destruct (resolveEntry_blind rec basePath ext Hrec cache1 cache2 H1 H2)
    as (Hfst & Hcons1 & Hsub1).
  destruct (resolveEntry_blind rec basePath ext Hrec cache2 cache1 H2 H1)
    as (_ & Hcons2 & _).
  destruct (resolveEntry disk resolve rec basePath ext cache1) as [r1 c1'].
  destruct (resolveEntry disk resolve rec basePath ext cache2) as [r2 c2'].
  simpl in *. subst r2.
  destruct r1 as [[extConfig|]|e|]; try done.
  - destruct (IH (mergeConfigs merged extConfig) c1' c2' Hcons1 Hcons2)
      as (Hr & Hc & Hs).
    split; [done|]. split; [done|]. by etrans.
  - destruct (IH merged c1' c2' Hcons1 Hcons2) as (Hr & Hc & Hs).
    split; [done|]. split; [done|]. by etrans.
Qed.

Lemma resolveExtends_blind (fuel : nat) :
  ∀ config basePath, cache_blind disk (resolveExtends disk resolve fuel config basePath).
Proof.
  induction fuel as [|fuel IH]; intros config basePath.
  - intros cache1 cache2 H1 H2. simpl. by destruct (extendsArray config).
  - intros cache1 cache2 H1 H2.
    change (resolveExtends disk resolve (S fuel) config basePath)
      with (λ cache, match extendsArray config with
                     | None => (Done config, cache)
                     | Some exts =>
                         extendsLoop disk resolve (resolveExtends disk resolve fuel)
                           config basePath exts DEFAULT_CONFIG cache
                     end).
    simpl. destruct (extendsArray config) as [exts|]; [|done].
    by apply extendsLoop_blind.
Qed.

(** X15: the cache never changes what a configuration resolves to.  With
    any cache that is consistent with the disk, [loadAndResolve] gives the
    result it gives with an empty cache, and it leaves a cache that is
    again consistent and has lost nothing; in particular, resolving the
    same file a second time with the same parser gives the first result
    again. *)
Theorem loadAndResolve_cache_blind (fuel : nat) (filePath : string) :
  cache_blind disk (loadAndResolve disk resolve fuel filePath) ∧
  (loadAndResolve disk resolve fuel filePath
     (loadAndResolve disk resolve fuel filePath ∅).2).1
  = (loadAndResolve disk resolve fuel filePath ∅).1.
Proof.
  assert (Hblind : cache_blind disk (loadAndResolve disk resolve fuel filePath)).
  { intros cache1 cache2 H1 H2. unfold loadAndResolve.
    destruct (loadConfig_blind filePath cache1 cache2 H1 H2) as (Hfst & Hcons1 & Hsub1).
    destruct (loadConfig_blind filePath cache2 cache1 H2 H1) as (_ & Hcons2 & _).
    destruct (loadConfig disk filePath cache1) as [r1 c1'].
    destruct (loadConfig disk filePath cache2) as [r2 c2'].
    simpl in *. subst r2. destruct r1 as [config|e]; [|done].
    destruct (resolveExtends_blind fuel config filePath c1' c2' Hcons1 Hcons2)
      as (Hr & Hc & Hs).
    split; [done|]. split; [done|]. by etrans. }
  split; [exact Hblind|].
  assert (Hempty : consistent disk ∅) by (intros p c; by rewrite lookup_empty).
  destruct (Hblind ∅ ∅ Hempty Hempty) as (_ & Hcons & _).
  by destruct (Hblind _ ∅ Hcons Hempty) as (-> & _).
Qed.

(** X16: the resolver has no cycle detection.  For a file whose [extends]
    starts with a reference that resolves to the file itself, resolution
    does not come to an end: whatever the recursion budget, the run uses
    it up. *)
Theorem self_extending_diverges (fuel : nat) (config : ApiGuardianConfig)
    (filePath ext : string) (rest : list string) (cache : Cache) :
  extendsArray config = Some (ext :: rest) →
  file_reference ext = true →
  resolve filePath ext = filePath →
  (loadConfig disk filePath cache).1 = Ret config →
  (resolveExtends disk resolve fuel config filePath cache).1 = Diverges.
Proof.
  intros Hexts Hfile Hself. revert cache.
  induction fuel as [|fuel IH]; intros cache Hload; simpl; rewrite Hexts; [done|].
  cbn [extendsLoop].
  unfold resolveEntry. unfold file_reference in Hfile. rewrite Hfile, Hself.
  destruct (loadConfig disk filePath cache) as [r cache1] eqn:Hrun.
  simpl in Hload. subst r.
  assert (Hagain : (loadConfig disk filePath cache1).1 = Ret config).
  { unfold loadConfig in *. destruct (cache !! filePath) as [x|] eqn:Hx.
    - injection Hrun as -> <-. by rewrite Hx.
    - destruct (disk filePath) as [y|e]; [|done].
      injection Hrun as -> <-. by rewrite lookup_insert_eq. }
  specialize (IH cache1 Hagain).
  destruct (resolveExtends disk resolve fuel config filePath cache1) as [r c2].
  simpl in IH. by subst r.
Qed.

(** *** What a resolved configuration looks like *)

Lemma seeded_merge (merged child : ApiGuardianConfig) :
  seeded merged → seeded (mergeConfigs merged child).
Proof.
  intros (Hd & Hf & Hs & Hfi & Hp). unfold seeded. simpl.
  split; [by destruct (defaultSeverity child)|].
  split; [by destruct (failOnWarnings child)|].
  split; [by destruct (showInfo child)|].
  split; [by destruct (files child)|].
  intros preset Hin. rewrite ConfigFacts.spread2_lookup.
  destruct (rulesets child ≫= (.!! preset)); [by eexists | by apply Hp].
Qed.

Lemma seeded_default : seeded DEFAULT_CONFIG.
Proof.
  repeat split; try (by eexists). intros preset [d Hd]. simpl.
  rewrite lookup_fmap, Hd. by eexists.
Qed.

Lemma extendsLoop_result rec (config : ApiGuardianConfig) (basePath : string)
    (exts : list string) :
  ∀ merged cache final cache',
    extendsLoop disk resolve rec config basePath exts merged cache = (Done final, cache') →
    ∃ merged', final = mergeConfigs merged' config ∧ (seeded merged → seeded merged').
Proof.
  induction exts as [|ext rest IH]; intros merged cache final cache'; simpl.
  - intros [= <- <-]. by exists merged.
  - destruct (resolveEntry disk resolve rec basePath ext cache) as [[[extConfig|]|e|] c1];
      try done.
    + intros Hrun. apply IH in Hrun as (m & -> & Hm). exists m. split; [done|].
      intros Hs. by apply Hm, seeded_merge.
    + apply IH.
Qed.

(** X17: a configuration that has an [extends] array, even an empty one,
    comes out of the resolver complete: it has no [extends] any more, it
    has a [rules] object, [defaultSeverity], [failOnWarnings], [showInfo]
    and [files] are all defined, and the three presets are among its
    rulesets.  A configuration without [extends] (or with the empty string)
    is returned exactly as it is, with none of this filled in. *)
Theorem resolved_config_complete (fuel : nat) (config : ApiGuardianConfig)
    (basePath : string) (cache : Cache) :
  (∀ exts final cache',
     extendsArray config = Some exts →
     resolveExtends disk resolve fuel config basePath cache = (Done final, cache') →
     complete final) ∧
  (extendsArray config = None →
     resolveExtends disk resolve fuel config basePath cache = (Done config, cache)) ∧
  (extendsArray config = Some [] →
     resolveExtends disk resolve (S fuel) config basePath cache
     = (Done (mergeConfigs DEFAULT_CONFIG config), cache)).
Proof.
  split; [|split].
  - intros exts final cache' Hexts.
    destruct fuel as [|fuel]; simpl; rewrite Hexts; [done|].
    intros Hrun. apply extendsLoop_result in Hrun as (m & -> & Hm).
    split; [done|]. split; [by eexists|]. apply seeded_merge, Hm, seeded_default.
  - intros Hnone. destruct fuel; simpl; by rewrite Hnone.
  - intros Hnil. simpl. by rewrite Hnil.
Qed.

(** *** Presets *)

Lemma preset_entry (rec : ApiGuardianConfig → string → Cache → Res ApiGuardianConfig * Cache)
    (basePath ext : string) (cache : Cache) :
  preset_reference ext →
  resolveEntry disk resolve rec basePath ext cache = (Done Skip, cache) ∨
  ∃ preset d,
    preset_table !! preset = Some d ∧
    resolveEntry disk resolve rec basePath ext cache
    = (Done (Extension (mkConfig None None (Some {[ preset := RulesetDef d ]})
                          None None None None ∅)), cache).
Proof.
  intros (Hfile & Hns). unfold file_reference in Hfile.
  destruct Hns as [Hspectral | (Hns & d & Hd)].
  - left. by apply ConfigFacts.spectral_skipped.
  - right. exists (key_of (split colon ext !! 1%nat)), d. split; [done|].
    by apply ConfigFacts.known_preset_resolves.
Qed.

Lemma preset_table_cases (preset : string) (d : RulesetDefinition) :
  preset_table !! preset = Some d →
  (preset = "strict"%string ∧ d = STRICT_RULESET) ∨
  (preset = "standard"%string ∧ d = STANDARD_RULESET) ∨
  (preset = "lenient"%string ∧ d = LENIENT_RULESET).
Proof.
  intros Hd.
  assert (Hdom : preset ∈ dom preset_table) by (apply elem_of_dom; by eexists).
  rewrite ConfigFacts.preset_table_dom in Hdom.
  apply elem_of_union in Hdom as [Hdom|Hdom];
    [apply elem_of_union in Hdom as [Hdom|Hdom]|];
    apply elem_of_singleton in Hdom; subst preset;
    vm_compute in Hd; injection Hd as <-; auto.
Qed.

(** What the accumulator is once a preset has been merged into the
    baseline: the baseline with an empty [rules] object. *)
Lemma merge_preset_into_default (preset : string) (d : RulesetDefinition) :
  preset_table !! preset = Some d →
  let presetConfig :=
    mkConfig None None (Some {[ preset := RulesetDef d ]}) None None None None ∅ in
  mergeConfigs DEFAULT_CONFIG presetConfig
    = mergeConfigs DEFAULT_CONFIG (mkConfig None None None None None None None ∅) ∧
  mergeConfigs (mergeConfigs DEFAULT_CONFIG (mkConfig None None None None None None None ∅))
    presetConfig
    = mergeConfigs DEFAULT_CONFIG (mkConfig None None None None None None None ∅).
Proof.
  intros Hd.
  destruct (preset_table_cases preset d Hd) as [[-> ->]|[[-> ->]|[-> ->]]];
    split; reflexivity.
Qed.

Lemma merge_after_blank (config : ApiGuardianConfig) :
  mergeConfigs
    (mergeConfigs DEFAULT_CONFIG (mkConfig None None None None None None None ∅)) config
  = mergeConfigs DEFAULT_CONFIG config.
Proof.
  unfold mergeConfigs, spread2. simpl.
  f_equal; rewrite ?(left_id_L ∅ (∪)), ?(right_id_L ∅ (∪)); try done;
    by repeat case_match.
Qed.

Lemma extendsLoop_presets rec (config : ApiGuardianConfig) (basePath : string)
    (exts : list string) (cache : Cache) :
  Forall preset_reference exts →
  ∀ merged,
    merged = DEFAULT_CONFIG ∨
    merged = mergeConfigs DEFAULT_CONFIG (mkConfig None None None None None None None ∅) →
    extendsLoop disk resolve rec config basePath exts merged cache
    = (Done (mergeConfigs DEFAULT_CONFIG config), cache).
Proof.
  induction 1 as [|ext rest Hext _ IH]; intros merged Hmerged; simpl.
  - destruct Hmerged as [-> | ->]; [done | by rewrite merge_after_blank].
  - destruct (preset_entry rec basePath ext cache Hext) as [-> | (p & d & Hd & ->)].
    + by apply IH.
    + apply IH. right.
      destruct (merge_preset_into_default p d Hd) as [H1 H2].
      by destruct Hmerged as [-> | ->].
Qed.

(** X18: extending presets changes nothing.  When every [extends] entry is
    a reference to one of the three presets (in the [api-guardian] or
    [preset] namespace) or a [spectral] reference, the resolved
    configuration is the baseline configuration with the document merged on
    top, whichever presets were named and in whichever order: the preset's
    rules are not copied into [rules], and no file is read. *)
Theorem preset_extends_is_baseline (fuel : nat) (config : ApiGuardianConfig)
    (basePath : string) (cache : Cache) (exts : list string) :
  extendsArray config = Some exts →
  Forall preset_reference exts →
  resolveExtends disk resolve (S fuel) config basePath cache
  = (Done (mergeConfigs DEFAULT_CONFIG config), cache).
Proof.
  intros Hexts Hall. simpl. rewrite Hexts. apply extendsLoop_presets; [done | by left].
Qed.

(** *** Failures *)

Lemma extendsLoop_first_failure rec (config : ApiGuardianConfig) (basePath : string)
    (pre : list string) (ext : string) (post : list string) :
  ∀ merged cache es cache1 e cache2,
    resolveAll disk resolve rec basePath pre cache = (Done es, cache1) →
    resolveEntry disk resolve rec basePath ext cache1 = (Fails e, cache2) →
    extendsLoop disk resolve rec config basePath (pre ++ ext :: post) merged cache
    = (Fails e, cache2).
Proof.
  induction pre as [|x pre IH]; intros merged cache es cache1 e cache2; simpl.
  - intros [= <- <-] ->. done.
  - destruct (resolveEntry disk resolve rec basePath x cache) as [[entry|e0|] c0];
      try done.
    destruct (resolveAll disk resolve rec basePath pre c0) as [[es0|e0|] c3] eqn:Hpre;
      try done.
    intros [= <- <-] Hfail. destruct entry; by eapply IH.
Qed.

(** X19: the first entry that fails ends the resolution.  When the entries
    before it resolve and it fails, [resolveExtends] fails with that
    entry's error, whatever the later entries and the document itself say;
    the later entries are not touched, so the cache is the one left by the
    failing entry. *)
Theorem first_failure_aborts (fuel : nat) (config : ApiGuardianConfig)
    (basePath : string) (cache cache1 cache2 : Cache)
    (pre post : list string) (ext : string)
    (es : list ApiGuardianConfig) (e : ConfigError) :
  extendsArray config = Some (pre ++ ext :: post) →
  resolveAll disk resolve (resolveExtends disk resolve fuel) basePath pre cache
    = (Done es, cache1) →
  resolveEntry disk resolve (resolveExtends disk resolve fuel) basePath ext cache1
    = (Fails e, cache2) →
  resolveExtends disk resolve (S fuel) config basePath cache = (Fails e, cache2).
Proof.
  intros Hexts Hpre Hfail. simpl. rewrite Hexts.
  by eapply extendsLoop_first_failure.
Qed.

End Cache.

(** *** Runs *)

Lemma loadConfig_cache_witness :
  loadConfig chainDisk "/cfg/base-config.yaml" ∅
    = (Ret baseConfig, {[ "/cfg/base-config.yaml"%string := baseConfig ]}) ∧
  loadConfig selfDisk "/cfg/base-config.yaml"
    {[ "/cfg/base-config.yaml"%string := baseConfig ]}
    = (Ret baseConfig, {[ "/cfg/base-config.yaml"%string := baseConfig ]}) ∧
  loadConfig selfDisk "/cfg/base-config.yaml" ∅
    = (Throw (notFound "/cfg/base-config.yaml"), ∅).
Proof.
  split; [|split].
  - apply (loadConfig_cache chainDisk "/cfg/base-config.yaml" ∅); reflexivity.
  - apply (loadConfig_cache chainDisk "/cfg/base-config.yaml"
             {[ "/cfg/base-config.yaml"%string := baseConfig ]}). reflexivity.
  - apply (loadConfig_cache selfDisk "/cfg/base-config.yaml" ∅); reflexivity.
Defined.

Lemma self_extending_diverges_witness :
  (resolveExtends selfDisk siblingPath 25 selfConfig "/cfg/self.yaml" ∅).1 = Diverges.
Proof.
  apply (self_extending_diverges selfDisk siblingPath 25 selfConfig "/cfg/self.yaml"
           "./self.yaml" [] ∅); reflexivity.
Defined.

Lemma resolved_config_complete_witness :
  complete (mergeConfigs (foldl mergeConfigs DEFAULT_CONFIG [resolvedMiddle]) topConfig) ∧
  resolveExtends chainDisk siblingPath 0 baseConfig "/cfg/base-config.yaml" ∅
    = (Done baseConfig, ∅).
Proof.
  destruct (resolved_config_complete chainDisk siblingPath 2 topConfig
              "/cfg/top-config.yaml" ∅) as (Hcomplete & _).
  destruct (resolved_config_complete chainDisk siblingPath 0 baseConfig
              "/cfg/base-config.yaml" ∅) as (_ & Hplain & _).
  split.
  - apply (Hcomplete ["./middle-config.yaml"%string] _ chainCache); reflexivity.
  - apply Hplain. reflexivity.
Defined.

Lemma preset_extends_is_baseline_witness :
  resolveExtends selfDisk siblingPath 1 presetsConfig "/cfg/any.yaml" ∅
  = (Done (mergeConfigs DEFAULT_CONFIG presetsConfig), ∅).
Proof.
  apply (preset_extends_is_baseline selfDisk siblingPath 0 presetsConfig
           "/cfg/any.yaml" ∅
           ["api-guardian:lenient"; "spectral:oas"; "preset:strict"]%string eq_refl).
  apply Forall_cons; split.
  { split; [reflexivity|]. right. split; [by left | eexists; reflexivity]. }
  apply Forall_cons; split.
  { split; [reflexivity|]. by left. }
  apply Forall_cons; split; [|apply Forall_nil_2].
  split; [reflexivity|]. right. split; [by right | eexists; reflexivity].
Defined.

Lemma first_failure_aborts_witness :
  resolveExtends chainDisk siblingPath 1 brokenConfig "/cfg/broken.yaml" ∅
  = (Fails (unknownNamespace "unknown" "unknown:zzz"), ∅).
Proof.
  apply (first_failure_aborts chainDisk siblingPath 0 brokenConfig "/cfg/broken.yaml"
           ∅ ∅ ∅ ["api-guardian:strict"%string] ["./base-config.yaml"%string]
           "unknown:zzz"
           [mkConfig None None (Some {[ "strict"%string := RulesetDef STRICT_RULESET ]})
              None None None None ∅]);
    reflexivity.
Defined.

End ConfigMore.

(** ** Loading: shape validation, parsing, the raw cache *)

Module LoadingMore.

Import Defaults ConfigParser LoadingNotions.

Lemma member_readable (k : string) (config : JsVal) :
  readable config = true → member k config = Ret (get_own k config).
Proof. by destruct config. Qed.

Lemma validateConfig_Ret (config : JsVal) (b : bool) :
  validateConfig config = Ret b → b = true.
Proof.
  unfold validateConfig.
  repeat (match goal with
          | |- context [member ?k config] => destruct (member k config); simpl; [|done]
          | |- context [if ?c then _ else _] => destruct c; simpl; [done|]
          end).
  congruence.
Qed.

(** Each check of [validateConfig] is the negation of [acceptable]. *)
Lemma check_extends (v : JsVal) :
  negb (is_undefined v) && negb (is_string v) && negb (string_array v)
  = negb (acceptable "extends" v).
Proof.
  unfold acceptable. change (String.eqb "extends" "extends") with true. cbv iota.
  destruct (is_undefined v), (is_string v), (string_array v); done.
Qed.

Lemma typeof_is_object (v : JsVal) : String.eqb (typeof v) "object" = typeof_object v.
Proof. by destruct v. Qed.

Lemma typeof_is_boolean (v : JsVal) :
  String.eqb (typeof v) "boolean" = match v with JBool _ => true | _ => false end.
Proof. by destruct v. Qed.

Lemma check_object (property : string) (v : JsVal) :
  property = "rules"%string ∨ property = "rulesets"%string →
  negb (is_undefined v) && negb (String.eqb (typeof v) "object")
  = negb (acceptable property v).
Proof.
  intros [-> | ->]; unfold acceptable; rewrite typeof_is_object;
    by destruct (is_undefined v), (typeof_object v).
Qed.

Lemma check_files (v : JsVal) :
  negb (is_undefined v) && negb (isArray v) = negb (acceptable "files" v).
Proof. unfold acceptable. by destruct (is_undefined v), (isArray v). Qed.

Lemma check_boolean (property : string) (v : JsVal) :
  property = "failOnWarnings"%string ∨ property = "showInfo"%string →
  negb (is_undefined v) && negb (String.eqb (typeof v) "boolean")
  = negb (acceptable property v).
Proof.
  intros [-> | ->]; unfold acceptable; rewrite typeof_is_boolean;
    by destruct (is_undefined v), v.
Qed.

(** [validateConfig] with its six reads done. *)
Lemma validateConfig_readable (config : JsVal) :
  readable config = true →
  validateConfig config
  = (let value property := get_own property config in
     let check what property expected constraint :=
       if negb (acceptable property (value property))
       then Throw (invalid what property (reported property (value property))
                     expected constraint)
       else Ret tt in
     _ ← check " must be a string or array of strings" "extends"
           "string | string[]" "must contain only strings";
     _ ← check " must be an object" "rules" "Record<string, RuleConfig>"
           "must be an object with rule configurations";
     _ ← check " must be an object" "rulesets" "Record<string, RulesetDefinition>"
           "must be an object with ruleset definitions";
     _ ← check " must be an array" "files" "FileConfig[]"
           "must be an array of file configurations";
     _ ← check " must be a boolean" "failOnWarnings" "boolean" "must be true or false";
     _ ← check " must be a boolean" "showInfo" "boolean" "must be true or false";
     Ret true)%string.
Proof.
  intros Hread. unfold validateConfig. rewrite !(member_readable _ _ Hread).
  cbv zeta. cbn [mbind Exc_bind].
  rewrite check_extends, (check_object "rules"), (check_object "rulesets"),
    check_files, (check_boolean "failOnWarnings"), (check_boolean "showInfo")
    by first [by left | by right].
  reflexivity.
Qed.

(** X20: on a value whose properties can be read, [validateConfig] checks
    [extends], [rules], [rulesets], [files], [failOnWarnings] and
    [showInfo] in that order and stops at the first one that holds
    something it does not accept: it throws a recoverable [ConfigError]
    without suggestion whose [property] is that name and whose [value] is
    the offending value (for [extends]) or its [typeof].  With no offending
    property it returns true.  [rules] and [rulesets] are accepted whenever
    [typeof] is [object], so also when they hold null or an array. *)
Theorem validateConfig_first_offending (config : JsVal) :
  readable config = true →
  match first_offending config with
  | None => validateConfig config = Ret true
  | Some property =>
      ∃ what expected constraint,
        validateConfig config
        = Throw (invalid what property (reported property (get_own property config))
                   expected constraint)
  end.
Proof.
  intros Hread. rewrite (validateConfig_readable _ Hread).
  unfold first_offending, checked. cbv zeta. cbn [find].
  repeat (match goal with
          | |- context [acceptable ?p ?v] =>
              destruct (acceptable p v); cbn [negb mbind Exc_bind];
                [|by eexists _, _, _]
          end).
  reflexivity.
Qed.

Lemma validateConfig_first_offending_witness :
  ∃ what expected constraint,
    validateConfig
      (JObj [("extends", JStr "base.yaml"); ("rules", JInt 3); ("files", JStr "x")])
    = Throw (invalid what "rules" (JStr "number") expected constraint).
Proof.
  exact (validateConfig_first_offending
           (JObj [("extends", JStr "base.yaml"); ("rules", JInt 3); ("files", JStr "x")])
           eq_refl).
Defined.

Lemma validateConfig_config_error (config : JsVal) (raised : Raised) :
  readable config = true → validateConfig config = Throw raised →
  ∃ e, raised = ConfigErr e.
Proof.
  intros Hread. rewrite (validateConfig_readable _ Hread). cbv beta zeta.
  repeat (match goal with
          | |- context [acceptable ?p ?v] =>
              destruct (acceptable p v); cbn [negb mbind Exc_bind];
                [|intros [= <-]; by eexists]
          end).
  done.
Qed.

Lemma get_own_unknown (k p : string) (x : JsVal) (props : list (string * JsVal)) :
  p ≠ k → get_own p (JObj ((k, x) :: props)) = get_own p (JObj props).
Proof. intros Hne. simpl. by destruct (String.eqb_spec p k). Qed.

(** X21: a property other than the six that are checked never changes the
    outcome of [validateConfig]: unknown properties are neither rejected
    nor inspected. *)
Theorem validateConfig_unknown_key (k : string) (x : JsVal)
    (props : list (string * JsVal)) :
  k ∉ checked →
  validateConfig (JObj ((k, x) :: props)) = validateConfig (JObj props).
Proof.
  intros Hk. rewrite !validateConfig_readable by done. cbv beta zeta.
  assert (Hne : ∀ p, p ∈ checked → p ≠ k) by (intros p Hp ->; done).
  rewrite !(get_own_unknown k) by (apply Hne; unfold checked; repeat constructor).
  reflexivity.
Qed.

Lemma validateConfig_unknown_key_witness :
  validateConfig (JObj [("version", JInt 2); ("showInfo", JStr "yes")])
  = validateConfig (JObj [("showInfo", JStr "yes")]).
Proof.
  apply (validateConfig_unknown_key "version" (JInt 2) [("showInfo", JStr "yes")]).
  unfold checked. intros Hin. repeat (apply elem_of_cons in Hin as [Heq|Hin]; [done|]).
  by apply elem_of_nil in Hin.
Defined.

Section Files.

Variable yaml_load : string → Exc string JsVal.
Variable JSON_parse : string → Exc string JsVal.
Variable existsSync : string → bool.
Variable readFileSync : string → Exc string string.
Variable extension : string → string.

Lemma parseYAML_Ret (content : string) (v : JsVal) :
  parseYAML yaml_load content = Ret v → readable v = true.
Proof.
  unfold parseYAML. destruct (yaml_load content) as [parsed|e]; simpl; [|done].
  destruct parsed; simpl; by intros [= <-].
Qed.

Lemma parseYAML_Throw (content : string) (raised : Raised) :
  parseYAML yaml_load content = Throw raised → ∃ e, raised = ConfigErr e.
Proof.
  unfold parseYAML. destruct (yaml_load content) as [parsed|e]; simpl.
  - destruct parsed; simpl; try done; intros [= <-]; by eexists.
  - intros [= <-]. by eexists.
Qed.

(** X22: whatever the YAML library does, [parseYAML] returns a value whose
    [typeof] is [object] and that is not null, namely the parsed value or
    a fresh empty object when the document is null or undefined, or it
    throws the [ConfigError] for the [root] property that wraps the
    message; a scalar document is reported as "YAML did not parse to an
    object", and no other kind of error leaves the function. *)
Theorem parseYAML_object_or_config_error (content : string) :
  match parseYAML yaml_load content with
  | Ret v =>
      typeof v = "object"%string ∧ readable v = true ∧
      match yaml_load content with
      | Ret JNull | Ret JUndefined => v = JObj []
      | parsed => parsed = Ret v
      end
  | Throw raised =>
      match yaml_load content with
      | Ret _ => raised = parseFailed "YAML" "YAML did not parse to an object"
      | Throw message => raised = parseFailed "YAML" message
      end
  end.
Proof.
  unfold parseYAML. destruct (yaml_load content) as [parsed|e]; simpl; [|done].
  destruct parsed; simpl; done.
Qed.

(** X23: when the extension is not [.json], every error that leaves
    [loadConfig] is a [ConfigError]: a missing file, a failed read, a
    parse failure and a shape violation are all reported that way. *)
Theorem loadConfigRaw_yaml_config_errors_only (filePath : string)
    (cache : gmap string JsVal) (raised : Raised) :
  extension filePath ≠ ".json"%string →
  (loadConfigRaw yaml_load JSON_parse existsSync readFileSync extension filePath cache).1
  = Throw raised →
  ∃ e, raised = ConfigErr e.
Proof.
  intros Hext. unfold loadConfigRaw.
  destruct (cache !! filePath); [done|].
  destruct (existsSync filePath); cbn [negb]; [|intros [= <-]; by eexists].
  destruct (readFileSync filePath) as [content|e]; [|intros [= <-]; by eexists].
  apply String.eqb_neq in Hext. rewrite Hext.
  destruct (parseYAML yaml_load content) as [v|r] eqn:Hparse; cbn [mbind Exc_bind].
  - destruct (validateConfig v) as [b|r] eqn:Hvalid; cbn [mbind Exc_bind mret Exc_ret]; [done|].
    intros [= <-]. apply (validateConfig_config_error v); [|done].
    by apply (parseYAML_Ret content).
  - intros [= <-]. by apply (parseYAML_Throw content).
Qed.

(** X24: a file that parses to null is treated differently by the two
    formats.  A [.json] file whose content is [null] makes [loadConfig]
    throw a [TypeError] (the shape validation reads a property of null),
    not a [ConfigError], and caches nothing; a YAML file whose document is
    null loads as the empty configuration and is cached. *)
Theorem loadConfigRaw_null_document (filePath content : string)
    (cache : gmap string JsVal) :
  cache !! filePath = None →
  existsSync filePath = true →
  readFileSync filePath = Ret content →
  (extension filePath = ".json"%string → JSON_parse content = Ret JNull →
   loadConfigRaw yaml_load JSON_parse existsSync readFileSync extension filePath cache
   = (Throw (OtherErr (ThrownError "Cannot read properties of null (reading 'extends')")),
      cache)) ∧
  (extension filePath ≠ ".json"%string → yaml_load content = Ret JNull →
   loadConfigRaw yaml_load JSON_parse existsSync readFileSync extension filePath cache
   = (Ret (JObj []), <[filePath := JObj []]> cache)).
Proof.
  intros Hmiss Hexists Hread. unfold loadConfigRaw.
  rewrite Hmiss, Hexists, Hread. cbn [negb]. split.
  - intros -> ->. reflexivity.
  - intros Hext%String.eqb_neq Hyaml. rewrite Hext.
    unfold parseYAML. rewrite Hyaml. reflexivity.
Qed.

(** X25: if every cached value passes [validateConfig], so does every
    value [loadConfig] returns, and the cache keeps that property.  A
    successful call leaves the returned value cached under the path; a
    failed call leaves the cache as it was. *)
Theorem loadConfigRaw_cache_valid (filePath : string) (cache : gmap string JsVal) :
  all_valid cache →
  let out :=
    loadConfigRaw yaml_load JSON_parse existsSync readFileSync extension filePath cache in
  all_valid out.2 ∧
  match out.1 with
  | Ret config => validateConfig config = Ret true ∧ out.2 !! filePath = Some config
  | Throw _ => out.2 = cache
  end.
Proof.
  intros Hvalid. cbv zeta. unfold loadConfigRaw.
  destruct (cache !! filePath) as [hit|] eqn:Hhit.
  { cbn [fst snd]. split; [done|]. split; [by apply (Hvalid filePath) | done]. }
  destruct (existsSync filePath); cbn [negb]; [|by split].
  destruct (readFileSync filePath) as [content|e]; [|by split].
  match goal with
  | |- context [mbind _ ?parsed] => destruct parsed as [v|r]
  end; cbn [mbind Exc_bind]; [|by split].
  destruct (validateConfig v) as [b|r] eqn:Hv; cbn [mbind Exc_bind mret Exc_ret];
    [|by split].
  apply validateConfig_Ret in Hv as Hb. subst b. cbn [fst snd].
  split; [|split; [done | apply lookup_insert_eq]].
  intros k c. destruct (decide (k = filePath)) as [->|Hne].
  - rewrite lookup_insert_eq. by intros [= <-].
  - rewrite lookup_insert_ne by done. apply Hvalid.
Qed.

End Files.

Lemma loadConfigRaw_yaml_config_errors_only_witness :
  ∃ e,
    (loadConfigRaw sampleYaml sampleJson sampleExists sampleRead sampleExtension
       "rules.yaml" ∅).1 = Throw (ConfigErr e) ∧
    d_property (cf_details e) = Some "rules"%string.
Proof.
  destruct (loadConfigRaw_yaml_config_errors_only sampleYaml sampleJson sampleExists
              sampleRead sampleExtension "rules.yaml" ∅
              (invalid " must be an object" "rules" (JStr "number")
                 "Record<string, RuleConfig>" "must be an object with rule configurations"))
    as [e He]; [done | reflexivity |].
  exists e. split; [by rewrite <- He|]. by injection He as <-.
Defined.

Lemma loadConfigRaw_null_document_witness :
  loadConfigRaw sampleYaml sampleJson sampleExists sampleRead sampleExtension
    "empty.json" ∅
  = (Throw (OtherErr (ThrownError "Cannot read properties of null (reading 'extends')")), ∅) ∧
  loadConfigRaw sampleYaml sampleJson sampleExists sampleRead sampleExtension
    "empty.yaml" ∅
  = (Ret (JObj []), {[ "empty.yaml"%string := JObj [] ]}).
Proof.
  split.
  - apply (loadConfigRaw_null_document sampleYaml sampleJson sampleExists sampleRead
             sampleExtension "empty.json" "null" ∅); reflexivity.
  - apply (loadConfigRaw_null_document sampleYaml sampleJson sampleExists sampleRead
             sampleExtension "empty.yaml" "~" ∅); done.
Defined.

Lemma loadConfigRaw_cache_valid_witness :
  validateConfig (JObj [("failOnWarnings", JBool true)]) = Ret true ∧
  (loadConfigRaw sampleYaml sampleJson sampleExists sampleRead sampleExtension
     "config.yaml" ∅).2 !! "config.yaml"%string
  = Some (JObj [("failOnWarnings", JBool true)]).
Proof.
  assert (Hempty : all_valid ∅) by (intros k c Hk; by rewrite lookup_empty in Hk).
  destruct (loadConfigRaw_cache_valid sampleYaml sampleJson sampleExists sampleRead
              sampleExtension "config.yaml" ∅ Hempty) as [_ Hrun].
  exact Hrun.
Defined.

End LoadingMore.

(** ** Command-line overrides *)

Module OverridesMore.

Import Defaults ConfigParser LoadingNotions.

(** [applyOverrides] as the composition of its steps. *)
Lemma applyOverrides_steps (config : ResolvedConfig) (o : CliOverrides) :
  applyOverrides config o
  = foldl (λ r kv, put kv.1 kv.2 r) (ignoreStep o (rulesetStep o config)) (settings o).
Proof.
  unfold applyOverrides, settings, ignoreStep, rulesetStep, put, appended. cbv zeta.
  destruct (given_string (cli_format o)), (flag (cli_verbose o)),
    (flag (cli_watch o)), (flag (cli_fix o)); reflexivity.
Qed.

Lemma put_frame (l : list (string * JsVal)) :
  ∀ r,
    let r' := foldl (λ r kv, put kv.1 kv.2 r) r l in
    extends (resolved r') = extends (resolved r) ∧
    rules (resolved r') = rules (resolved r) ∧
    rulesets (resolved r') = rulesets (resolved r) ∧
    files (resolved r') = files (resolved r) ∧
    defaultSeverity (resolved r') = defaultSeverity (resolved r) ∧
    failOnWarnings (resolved r') = failOnWarnings (resolved r) ∧
    showInfo (resolved r') = showInfo (resolved r) ∧
    configPath r' = configPath r ∧
    resolvedRules r' = resolvedRules r ∧
    activeRuleset r' = activeRuleset r.
Proof.
  induction l as [|[k v] l IH]; intros r; [done|].
  cbn [foldl fst snd]. cbv zeta in IH |- *.
  destruct (IH (put k v r)) as (-> & -> & -> & -> & -> & -> & -> & -> & -> & ->). done.
Qed.

Lemma put_custom (o : CliOverrides) (r : ResolvedConfig) (k : string) :
  custom (resolved (foldl (λ r kv, put kv.1 kv.2 r) r (settings o))) !! k
  = if String.eqb k "fix"
    then if flag (cli_fix o) then Some (JBool true) else custom (resolved r) !! k
    else if String.eqb k "watch"
    then if flag (cli_watch o) then Some (JBool true) else custom (resolved r) !! k
    else if String.eqb k "verbose"
    then if flag (cli_verbose o) then Some (JBool true) else custom (resolved r) !! k
    else if String.eqb k "outputFormat"
    then match given_string (cli_format o) with
         | Some format => Some (JStr format)
         | None => custom (resolved r) !! k
         end
    else custom (resolved r) !! k.
Proof.
  unfold settings.
  destruct (String.eqb_spec k "fix") as [->|Hfix];
    [|destruct (String.eqb_spec k "watch") as [->|Hwatch];
      [|destruct (String.eqb_spec k "verbose") as [->|Hverbose];
        [|destruct (String.eqb_spec k "outputFormat") as [->|Hformat]]]];
    destruct (given_string (cli_format o)), (flag (cli_verbose o)),
      (flag (cli_watch o)), (flag (cli_fix o));
    cbn [app foldl put with_custom resolved custom fst snd];
    rewrite ?lookup_insert_eq, ?lookup_insert_ne by done;
    rewrite ?lookup_insert_eq, ?lookup_insert_ne by done;
    rewrite ?lookup_insert_eq, ?lookup_insert_ne by done;
    rewrite ?lookup_insert_eq, ?lookup_insert_ne by done; reflexivity.
Qed.

Lemma steps_frame (config : ResolvedConfig) (o : CliOverrides) :
  let r := ignoreStep o (rulesetStep o config) in
  extends (resolved r) = extends (resolved config) ∧
  rules (resolved r) = rules (resolved config) ∧
  defaultSeverity (resolved r) = defaultSeverity (resolved config) ∧
  failOnWarnings (resolved r) = failOnWarnings (resolved config) ∧
  showInfo (resolved r) = showInfo (resolved config) ∧
  custom (resolved r) = custom (resolved config) ∧
  configPath r = configPath config ∧
  resolvedRules r = resolvedRules config.
Proof.
  unfold ignoreStep, rulesetStep.
  destruct (given_string (cli_ruleset o)) as [name|];
    [destruct (getPresetRuleset name)|];
    cbn [resolved files with_rulesets];
    destruct (cli_ignorePaths o), (files (resolved config)); done.
Qed.

(** X26: [applyOverrides] never changes [extends], [rules],
    [defaultSeverity], [failOnWarnings], [showInfo], [configPath] or
    [resolvedRules]; among the other properties it writes only
    [outputFormat], [verbose], [watch] and [fix], and a flag that is false
    or absent leaves a value the configuration already has in place.  The
    [configPath], [failSeverity] and [outputPath] overrides are never
    read. *)
Theorem applyOverrides_scope (config : ResolvedConfig) (o : CliOverrides) :
  let result := applyOverrides config o in
  (extends (resolved result) = extends (resolved config) ∧
   rules (resolved result) = rules (resolved config) ∧
   defaultSeverity (resolved result) = defaultSeverity (resolved config) ∧
   failOnWarnings (resolved result) = failOnWarnings (resolved config) ∧
   showInfo (resolved result) = showInfo (resolved config) ∧
   configPath result = configPath config ∧
   resolvedRules result = resolvedRules config) ∧
  (∀ k, k ∉ cli_keys →
     custom (resolved result) !! k = custom (resolved config) !! k) ∧
  (custom (resolved result) !! "outputFormat"%string
   = match given_string (cli_format o) with
     | Some format => Some (JStr format)
     | None => custom (resolved config) !! "outputFormat"%string
     end) ∧
  (∀ k given,
     (k, given) ∈ [ ("verbose", cli_verbose o); ("watch", cli_watch o);
                    ("fix", cli_fix o) ]%string →
     custom (resolved result) !! k
     = if flag given then Some (JBool true) else custom (resolved config) !! k) ∧
  applyOverrides config o = applyOverrides config (effective o).
Proof.
  cbv zeta.
  assert (Heff : applyOverrides config o = applyOverrides config (effective o))
    by reflexivity.
  revert Heff. generalize (applyOverrides config (effective o)). intros same.
  rewrite applyOverrides_steps. intros Heff.
  destruct (put_frame (settings o) (ignoreStep o (rulesetStep o config)))
    as (He & Hr & _ & _ & Hd & Hf & Hs & Hc & Hrr & _).
  destruct (steps_frame config o) as (He' & Hr' & Hd' & Hf' & Hs' & Hcustom & Hc' & Hrr').
  cbv zeta in *.
  split; [by rewrite He, Hr, Hd, Hf, Hs, Hc, Hrr|].
  split; [|split; [|split]].
  - intros k Hk. rewrite put_custom, Hcustom.
    assert (k ≠ "outputFormat" ∧ k ≠ "verbose" ∧ k ≠ "watch" ∧ k ≠ "fix")%string
      as (H1 & H2 & H3 & H4).
    { unfold cli_keys in Hk. rewrite !not_elem_of_cons in Hk. tauto. }
    apply String.eqb_neq in H1, H2, H3, H4. by rewrite H1, H2, H3, H4.
  - rewrite put_custom, Hcustom. reflexivity.
  - intros k given Hin. rewrite put_custom, Hcustom.
    repeat (apply elem_of_cons in Hin as [[= -> ->]|Hin]; [reflexivity|]).
    by apply elem_of_nil in Hin.
  - exact Heff.
Qed.

Lemma applyOverrides_scope_witness :
  rules (resolved (applyOverrides sampleResolved
                     (mkCli None (Some "strict") (Some ERROR) None (Some "json") None
                        None None (Some true))))%string
  = rules DEFAULT_CONFIG.
Proof.
  destruct (applyOverrides_scope sampleResolved
              (mkCli None (Some "strict") (Some ERROR) None (Some "json") None
                 None None (Some true))%string) as ((_ & Hrules & _) & _).
  exact Hrules.
Defined.

Lemma rulesetStep_files (config : ResolvedConfig) (o : CliOverrides) :
  files (resolved (rulesetStep o config)) = files (resolved config).
Proof.
  unfold rulesetStep.
  destruct (given_string (cli_ruleset o)) as [name|]; [|done].
  by destruct (getPresetRuleset name).
Qed.

Lemma ignoreStep_rulesets (r : ResolvedConfig) (o : CliOverrides) :
  rulesets (resolved (ignoreStep o r)) = rulesets (resolved r) ∧
  activeRuleset (ignoreStep o r) = activeRuleset r.
Proof. unfold ignoreStep. by destruct (cli_ignorePaths o), (files (resolved r)). Qed.

Lemma applyOverrides_files (config : ResolvedConfig) (o : CliOverrides) :
  files (resolved (applyOverrides config o))
  = match cli_ignorePaths o, files (resolved config) with
    | Some ignorePaths, Some fs => Some (appended ignorePaths <$> fs)
    | _, _ => files (resolved config)
    end.
Proof.
  rewrite applyOverrides_steps.
  destruct (put_frame (settings o) (ignoreStep o (rulesetStep o config)))
    as (_ & _ & _ & -> & _).
  unfold ignoreStep. rewrite rulesetStep_files.
  destruct (cli_ignorePaths o), (files (resolved config)) eqn:Hfiles;
    cbn [resolved files with_files]; by rewrite ?rulesetStep_files.
Qed.

Lemma applyOverrides_rulesets (config : ResolvedConfig) (o : CliOverrides) :
  rulesets (resolved (applyOverrides config o))
  = rulesets (resolved (rulesetStep o config)) ∧
  activeRuleset (applyOverrides config o) = activeRuleset (rulesetStep o config).
Proof.
  rewrite applyOverrides_steps.
  destruct (put_frame (settings o) (ignoreStep o (rulesetStep o config)))
    as (_ & _ & -> & _ & _ & _ & _ & _ & _ & ->).
  apply ignoreStep_rulesets.
Qed.

(** X27: the [ruleset] override.  One of the three preset names makes that
    preset the active ruleset and stores its definition under its name in
    [rulesets], leaving the other rulesets as they were.  A name that is
    neither a preset nor a member of [Object.prototype] is ignored without
    any error: the active ruleset and [rulesets] stay as they were.  A name
    inherited from [Object.prototype], such as [constructor], is taken for
    a preset and becomes the active ruleset. *)
Theorem applyOverrides_ruleset (config : ResolvedConfig) (o : CliOverrides)
    (name : string) :
  given_string (cli_ruleset o) = Some name →
  let result := applyOverrides config o in
  (∀ d, preset_table !! name = Some d →
     activeRuleset result = Some name ∧
     ∃ rs, rulesets (resolved result) = Some rs ∧
           rs !! name = Some (RulesetDef d) ∧
           ∀ k, k ≠ name → rs !! k = default ∅ (rulesets (resolved config)) !! k) ∧
  (preset_table !! name = None → inherited name = false →
     activeRuleset result = activeRuleset config ∧
     rulesets (resolved result) = rulesets (resolved config)) ∧
  (inherited name = true → activeRuleset result = Some name).
Proof.
  intros Hname. cbv zeta.
  destruct (applyOverrides_rulesets config o) as [-> ->].
  unfold rulesetStep. rewrite Hname. unfold getPresetRuleset.
  split; [|split].
  - intros d Hd. rewrite Hd. cbn [activeRuleset resolved rulesets with_rulesets].
    split; [done|]. eexists. split; [done|].
    assert (Hproto : String.eqb name "__proto__" = false).
    { apply String.eqb_neq. intros ->. by vm_compute in Hd. }
    unfold assign. rewrite Hproto. split; [apply lookup_insert_eq|].
    intros k Hk. by rewrite lookup_insert_ne.
  - by intros -> ->.
  - intros Hin. rewrite Hin. by destruct (preset_table !! name).
Qed.

Lemma applyOverrides_ruleset_witness :
  activeRuleset (applyOverrides sampleResolved
                   (mkCli None (Some "lenient") None None None None None None None))%string
  = Some "lenient"%string ∧
  activeRuleset (applyOverrides sampleResolved
                   (mkCli None (Some "recommended") None None None None None None None))%string
  = None ∧
  activeRuleset (applyOverrides sampleResolved
                   (mkCli None (Some "constructor") None None None None None None None))%string
  = Some "constructor"%string.
Proof.
  destruct (applyOverrides_ruleset sampleResolved
              (mkCli None (Some "lenient") None None None None None None None)%string
              "lenient" eq_refl) as (Hpreset & _ & _).
  destruct (applyOverrides_ruleset sampleResolved
              (mkCli None (Some "recommended") None None None None None None None)%string
              "recommended" eq_refl) as (_ & Hunknown & _).
  destruct (applyOverrides_ruleset sampleResolved
              (mkCli None (Some "constructor") None None None None None None None)%string
              "constructor" eq_refl) as (_ & _ & Hinherited).
  split; [|split].
  - by destruct (Hpreset LENIENT_RULESET eq_refl) as [Hactive _].
  - by destruct (Hunknown eq_refl eq_refl) as [Hactive _].
  - by apply Hinherited.
Defined.

(** X28: the [ignorePaths] override is appended to the ignore list of
    every entry of [files], keeping the entries, their order, their
    patterns and their rules; applying the same overrides again appends
    the paths a second time.  When the configuration has no [files], the
    override is dropped. *)
Theorem applyOverrides_ignorePaths (config : ResolvedConfig) (o : CliOverrides)
    (ignorePaths : list string) :
  cli_ignorePaths o = Some ignorePaths →
  match files (resolved config) with
  | Some fs =>
      files (resolved (applyOverrides config o))
      = Some ((λ file, mkFile (pattern file)
                         (Some (default [] (ignore file) ++ ignorePaths))
                         (file_rules file)) <$> fs) ∧
      files (resolved (applyOverrides (applyOverrides config o) o))
      = Some ((λ file, mkFile (pattern file)
                         (Some (default [] (ignore file) ++ ignorePaths ++ ignorePaths))
                         (file_rules file)) <$> fs)
  | None =>
      files (resolved (applyOverrides config o)) = None ∧
      files (resolved (applyOverrides (applyOverrides config o) o)) = None
  end.
Proof.
  intros Hpaths. rewrite (applyOverrides_files (applyOverrides config o)).
  rewrite !applyOverrides_files, Hpaths.
  destruct (files (resolved config)) as [fs|]; [|done].
  split; [done|]. f_equal. rewrite <- list_fmap_compose.
  apply list_fmap_ext. intros i file _. unfold appended. simpl.
  by rewrite <- app_assoc.
Qed.

Lemma applyOverrides_ignorePaths_witness :
  files (resolved (applyOverrides sampleResolved
                     (mkCli None None None (Some ["dist/**"]) None None None None None)))%string
  = Some [ mkFile "openapi.{json,yaml,yml}" (Some ["dist/**"]) None;
           mkFile "api/**/*.{json,yaml,yml}"
             (Some ["**/node_modules/**"; "**/.git/**"; "dist/**"]) None ]%string.
Proof.
  destruct (applyOverrides_ignorePaths sampleResolved
              (mkCli None None None (Some ["dist/**"]) None None None None None)%string
              ["dist/**"]%string eq_refl) as [Hfiles _].
  exact Hfiles.
Defined.

End OverridesMore.

(** ** Orchestrator: construction and a first run *)

Module OrchestratorMore.

Import RuleRegistry Validator ValidatorNotions.

Lemma registerBatch_app (a b : list Rule) :
  ∀ reg, registerBatch (a ++ b) reg = registerBatch a reg ≫= registerBatch b.
Proof.
  induction a as [|r a IH]; intros reg; [done|].
  cbn [app registerBatch]. destruct (register r reg) as [reg'|e]; [apply IH | done].
Qed.

Lemma construct_unfold (body : string → RuleFunction)
    (validatorConfig : option ValidatorConfig) :
  config_given validatorConfig = false →
  construct body validatorConfig
  = reg ← registerBatch (requested body validatorConfig) RuleRegistry.empty;
    Ret (Validator.mk reg None).
Proof.
  intros Hgiven. unfold construct, requested. rewrite Hgiven.
  rewrite registerBatch_app. cbn [mbind Exc_bind mret Exc_ret].
  destruct (bool_decide (validatorConfig ≫= useBuiltInRules = Some false));
    cbn [registerBatch mbind Exc_bind].
  - destruct (validatorConfig ≫= customRules) as [rs|];
      cbn [default from_option Datatypes.id registerBatch]; [|done].
    by destruct (registerBatch rs RuleRegistry.empty).
  - destruct (registerBatch (BuiltIn.BUILTIN_RULES body) RuleRegistry.empty) as [reg1|e];
      cbn [mbind Exc_bind]; [|done].
    destruct (validatorConfig ≫= customRules) as [rs|];
      cbn [default from_option Datatypes.id registerBatch]; [|done].
    by destruct (registerBatch rs reg1).
Qed.

Lemma builtin_ids_distinct (body : string → RuleFunction) :
  NoDup (id <$> BuiltIn.BUILTIN_RULES body).
Proof.
  apply (bool_decide_unpack (NoDup (id <$> BuiltIn.BUILTIN_RULES body))).
  vm_compute. reflexivity.
Qed.

(** X29: constructing a validator.  The constructor returns exactly when
    no configuration is passed and the ids of the requested rules, the
    built-in ones (unless [useBuiltInRules] is false) followed by the
    custom ones, are pairwise distinct; a custom rule that reuses a
    built-in id makes it throw.  When a configuration object or a
    non-empty path is passed it throws a [TypeError], because it calls
    [this.initializeConfig], which the class does not define.  A validator
    that is constructed has no configuration, holds the requested rules in
    order and has no overrides.  The twenty built-in ids are distinct. *)
Theorem construct_succeeds_iff (body : string → RuleFunction)
    (validatorConfig : option ValidatorConfig) :
  ((∃ v, construct body validatorConfig = Ret v)
   ↔ config_given validatorConfig = false ∧
     NoDup (id <$> requested body validatorConfig)) ∧
  (config_given validatorConfig = true →
   construct body validatorConfig
   = Throw (ThrownError "this.initializeConfig is not a function")) ∧
  (∀ v, construct body validatorConfig = Ret v →
     Validator.config v = None ∧
     rules (registry v) = requested body validatorConfig ∧
     overrides (registry v) = ∅) ∧
  NoDup (id <$> BuiltIn.BUILTIN_RULES body) ∧
  length (BuiltIn.BUILTIN_RULES body) = 20%nat.
Proof.
  assert (Hthrow : config_given validatorConfig = true →
    construct body validatorConfig
    = Throw (ThrownError "this.initializeConfig is not a function")).
  { intros Hgiven. unfold construct. by rewrite Hgiven. }
  split; [|split; [done|split; [|split; [apply builtin_ids_distinct | done]]]].
  - destruct (config_given validatorConfig) eqn:Hgiven.
    + rewrite Hthrow by done. split; [by intros [? ?] | by intros [? _]].
    + rewrite construct_unfold by done.
      pose proof (RegistryMore.registerBatch_succeeds_iff
                    (requested body validatorConfig) RuleRegistry.empty) as Hiff.
      split.
      * intros [v Hv]. split; [done|]. apply Hiff.
        destruct (registerBatch (requested body validatorConfig) RuleRegistry.empty)
          as [reg|e]; [by eexists | done].
      * intros [_ Hnd].
        destruct (proj2 Hiff) as [reg ->]; [|by eexists].
        split; [done|]. intros r _. apply not_elem_of_nil.
  - intros v. destruct (config_given validatorConfig) eqn:Hgiven.
    + by rewrite Hthrow.
    + rewrite construct_unfold by done.
      destruct (registerBatch (requested body validatorConfig) RuleRegistry.empty)
        as [reg|e] eqn:Hbatch; [|done].
      cbn [mbind Exc_bind mret Exc_ret]. intros [= <-].
      apply RegistryMore.registerBatch_rules in Hbatch as [Hrules Hover].
      cbn [registry Validator.config]. by rewrite Hrules, Hover.
Qed.

Lemma construct_succeeds_iff_witness :
  (∃ v, construct silent (Some (mkValidatorConfig None None (Some [customOff]))) = Ret v) ∧
  construct silent
    (Some (mkValidatorConfig (Some (inr "api-guardian.yaml"%string)) None None))
  = Throw (ThrownError "this.initializeConfig is not a function").
Proof.
  destruct (construct_succeeds_iff silent
              (Some (mkValidatorConfig None None (Some [customOff])))) as (Hiff & _).
  destruct (construct_succeeds_iff silent
              (Some (mkValidatorConfig (Some (inr "api-guardian.yaml"%string)) None None)))
    as (_ & Hthrow & _).
  split; [|by apply Hthrow].
  apply Hiff. split; [done|].
  apply (bool_decide_unpack
           (NoDup (id <$> requested silent
                            (Some (mkValidatorConfig None None (Some [customOff])))))).
  vm_compute. reflexivity.
Defined.

(** X30: the first run of a validator as the constructor leaves it.
    Whatever the path and the default severity, [validate] returns the
    failure report of the loader call: [spec = null], [valid = false], no
    issues, no rule executed, "this.specLoader.load is not a function" as
    error, no [configPath], and as [ruleCount] the number of requested
    rules (twenty with the defaults).  The rule bodies play no part in the
    result. *)
Theorem constructed_validator_first_run (body : string → RuleFunction)
    (validatorConfig : option ValidatorConfig) (v : Validator.t)
    (specPath : string) (defaultSeverity : option IssueSeverity) :
  construct body validatorConfig = Ret v →
  validate v specPath defaultSeverity
  = Ret (mkResult JNull false [] (mkResultStats 0 0)
           (mkMetadata None (length (requested body validatorConfig)) None
              (Some "this.specLoader.load is not a function"%string))) ∧
  (validatorConfig ≫= useBuiltInRules ≠ Some false →
   validatorConfig ≫= customRules = None →
   length (requested body validatorConfig) = 20%nat).
Proof.
  intros Hv.
  assert (Hgiven : config_given validatorConfig = false).
  { destruct (config_given validatorConfig) eqn:Hgiven; [|done].
    unfold construct in Hv. by rewrite Hgiven in Hv. }
  rewrite construct_unfold in Hv by done.
  destruct (registerBatch (requested body validatorConfig) RuleRegistry.empty)
    as [reg|e] eqn:Hbatch; [|done].
  cbn [mbind Exc_bind mret Exc_ret] in Hv. injection Hv as <-.
  apply RegistryMore.registerBatch_rules in Hbatch as [Hrules _].
  cbn [rules RuleRegistry.empty app] in Hrules. split.
  - unfold validate, specLoader_load, provided, getCount.
    cbn [try_catch mbind Exc_bind thrown_message registry Validator.config].
    by rewrite Hrules.
  - intros Hbuiltin Hcustom. unfold requested.
    rewrite bool_decide_eq_false_2, Hcustom by done. reflexivity.
Qed.

Lemma constructed_validator_first_run_witness :
  ∃ v result,
    construct silent (Some (mkValidatorConfig None None (Some [customOff]))) = Ret v ∧
    validate v "openapi.yaml" None = Ret result ∧
    valid result = false ∧
    rulesExecuted (stats result) = 0%nat ∧
    ruleCount (metadata result) = 21%nat.
Proof.
  assert (Hv : ∃ v, construct silent
                      (Some (mkValidatorConfig None None (Some [customOff]))) = Ret v).
  { rewrite construct_unfold by done.
    destruct (proj2 (RegistryMore.registerBatch_succeeds_iff
                       (requested silent
                          (Some (mkValidatorConfig None None (Some [customOff]))))
                       RuleRegistry.empty)) as [reg Hreg].
    - split; [|intros r _; apply not_elem_of_nil].
      apply (bool_decide_unpack
               (NoDup (id <$> requested silent
                                (Some (mkValidatorConfig None None (Some [customOff])))))).
      vm_compute. reflexivity.
    - rewrite Hreg. by eexists. }
  destruct Hv as [v Hv]. exists v.
  destruct (constructed_validator_first_run silent
              (Some (mkValidatorConfig None None (Some [customOff]))) v
              "openapi.yaml" None Hv) as [Hrun _].
  eexists. split; [exact Hv|]. split; [exact Hrun|]. by repeat split.
Defined.

End OrchestratorMore.
